(** * Hexsweep: a hex-grid minesweeper (try.py)

    A shallow embedding of the board logic of [try.py]: board
    construction, random mine placement, adjacency counting, the recursive
    flood-fill reveal and the left-click handling of the main loop,
    followed by the properties of the specification that concern them.

    Modelling conventions.
    - A Python [Hex] object is a record; the list [hex_grid] is a [list Hex]
      and an object of the grid is identified with its position in the list
      (the objects built by [create_hex_grid] are pairwise distinct, and the
      grid list is never resized).  An attribute assignment is an in-place
      update [<[i:=_]>] of that position.
    - Python integers are [Z].
    - [random.choice] reads its successive results from an explicit list of
      draws; a run that has used up the supplied draws while the loop is
      still going is reported as [Running].
    - The recursion of [reveal_hex] is bounded by an explicit call depth;
      [None] is the interpreter giving up (recursion limit).
    - Sound playback and the assignments [hexagon.revealed = True] are
      recorded in logs kept next to the grid.
    - Floating point arithmetic is an interface ([FloatOps]); rendering and
      timing are not modelled. *)

From Stdlib Require Import ZArith Lia Bool Floats Uint63.
From stdpp Require Import base decidable option relations list list_numbers sorting strings gmap.

Open Scope Z_scope.

(** ** Constants (lines 9-12) *)

Definition WIDTH : Z := 1366.
Definition HEIGHT : Z := 768.
Definition FPS : Z := 30.
Definition HEX_SIZE : Z := 40.
Definition NUM_MINES : Z := 10.

(** ** class Hex (lines 37-48) *)

Record Hex : Type := mkHex {
  q : Z;
  r : Z;
  color : Z * Z * Z;
  is_mine : bool;
  revealed : bool;
  adjacent_mines : Z
}.

(** [Hex(q, r)] with the default arguments of [__init__]. *)
Definition Hex_init (cq cr : Z) : Hex :=
  {| q := cq; r := cr; color := (0, 255, 0); is_mine := false;
     revealed := false; adjacent_mines := 0 |}.

Definition set_is_mine (b : bool) (h : Hex) : Hex :=
  {| q := q h; r := r h; color := color h; is_mine := b;
     revealed := revealed h; adjacent_mines := adjacent_mines h |}.

Definition set_revealed (b : bool) (h : Hex) : Hex :=
  {| q := q h; r := r h; color := color h; is_mine := is_mine h;
     revealed := b; adjacent_mines := adjacent_mines h |}.

Definition set_adjacent_mines (n : Z) (h : Hex) : Hex :=
  {| q := q h; r := r h; color := color h; is_mine := is_mine h;
     revealed := revealed h; adjacent_mines := n |}.

(** [Hex._directions] *)
Definition directions : list (Z * Z) :=
  [(1, 0); (0, 1); (-1, 1); (-1, 0); (0, -1); (1, -1)].

Definition coords (h : Hex) : Z * Z := (q h, r h).

(** ** create_hex_grid (lines 83-91) *)

(** Python's [range(lo, hi)]. *)
Definition range (lo hi : Z) : list Z := seqZ lo (hi - lo).

Definition create_hex_grid (rings : Z) : list Hex :=
  foldl (fun hex_set cq =>
    foldl (fun hex_set cr =>
      let s := - cq - cr in
      if (- rings <=? s) && (s <=? rings)
      then hex_set ++ [Hex_init cq cr]
      else hex_set)
      hex_set (range (- rings) (rings + 1)))
    [] (range (- rings) (rings + 1)).

(** ** place_mines (lines 93-100) *)

Inductive exn : Type := IndexError.

(** Result of running a loop on a finite supply of random draws. *)
Inductive outcome (A : Type) : Type :=
  | Returned (a : A)      (* the function returned normally *)
  | Raised (e : exn)      (* an exception escaped *)
  | Running (a : A).      (* draws used up, the loop has not exited *)
Arguments Returned {A} a.
Arguments Raised {A} e.
Arguments Running {A} a.

(** The [while] loop.  [random.choice(hex_grid)] is the element at position
    [k mod len(hex_grid)] for the next draw [k]; on an empty grid it raises
    [IndexError]. *)
Fixpoint place_mines_loop (draws : list nat) (hex_grid : list Hex)
    (num_mines mines_placed : Z) {struct draws} : outcome (list Hex) :=
  if mines_placed <? num_mines then
    match draws with
    | [] => Running hex_grid
    | k :: draws' =>
        let i := (k mod length hex_grid)%nat in
        match hex_grid !! i with
        | None => Raised IndexError
        | Some hexagon =>
            if is_mine hexagon
            then place_mines_loop draws' hex_grid num_mines mines_placed
            else place_mines_loop draws'
                   (<[i := set_is_mine true hexagon]> hex_grid)
                   num_mines (mines_placed + 1)
        end
    end
  else Returned hex_grid.

Definition place_mines (draws : list nat) (hex_grid : list Hex)
    (num_mines : Z) : outcome (list Hex) :=
  place_mines_loop draws hex_grid num_mines 0.

(** ** Neighbour lookup (lines 111 and 127)

    [next((h for h in hex_grid if h.q == nq and h.r == nr), None)]: the
    first object of the grid at the coordinate, with its position. *)

Definition at_coord (nq nr : Z) (h : Hex) : Prop := q h = nq /\ r h = nr.

Global Instance at_coord_dec nq nr h : Decision (at_coord nq nr h).
Proof. unfold at_coord. apply _. Defined.

Definition find_hex (hex_grid : list Hex) (nq nr : Z) : option (nat * Hex) :=
  list_find (at_coord nq nr) hex_grid.

(** ** calculate_adjacent_mines (lines 102-114) *)

(** The inner loop over [Hex._directions]. *)
Definition count_adjacent (hex_grid : list Hex) (hexagon : Hex) : Z :=
  foldl (fun adjacent_count direction =>
    let neighbor_q := q hexagon + direction.1 in
    let neighbor_r := r hexagon + direction.2 in
    match find_hex hex_grid neighbor_q neighbor_r with
    | Some (_, neighbor) =>
        if is_mine neighbor then adjacent_count + 1 else adjacent_count
    | None => adjacent_count
    end) 0 directions.

(** The outer loop, updating the grid cell by cell. *)
Definition calculate_adjacent_mines (hex_grid : list Hex) : list Hex :=
  foldl (fun g i =>
    match g !! i with
    | Some hexagon =>
        if is_mine hexagon then g
        else <[i := set_adjacent_mines (count_adjacent g hexagon) hexagon]> g
    | None => g
    end) hex_grid (seq 0 (length hex_grid)).

(** ** Sounds (lines 22-35) and the game state *)

Inductive SoundKey : Type := snd_click | snd_reveal | snd_game_over.

(** The dictionary returned by [load_sounds]: [true] for a loaded sound,
    [false] for [None]. *)
Definition Sounds : Type := SoundKey -> bool.

(** The grid together with the two logs, most recent entry first:
    [played] lists the sounds played, [marked] the positions whose
    [revealed] attribute was assigned at line 120. *)
Record World : Type := mkWorld {
  grid : list Hex;
  played : list SoundKey;
  marked : list nat
}.

(** [if sounds[k]: sounds[k].play()] *)
Definition play (sounds : Sounds) (k : SoundKey) (w : World) : World :=
  if sounds k
  then {| grid := grid w; played := k :: played w; marked := marked w |}
  else w.

(** [hexagon.revealed = True] for the object at position [i] (line 120). *)
Definition mark_revealed (i : nat) (hexagon : Hex) (w : World) : World :=
  {| grid := <[i := set_revealed true hexagon]> (grid w);
     played := played w;
     marked := i :: marked w |}.

(** ** reveal_hex (lines 116-129)

    [depth] bounds the nesting of calls.  The argument [hexagon] is the grid
    object at position [i]; a position outside the grid denotes no object
    and the call does nothing. *)
Fixpoint reveal_hex (depth : nat) (sounds : Sounds) (i : nat) (w : World)
    {struct depth} : option World :=
  match depth with
  | O => None
  | S depth' =>
      match grid w !! i with
      | None => Some w
      | Some hexagon =>
          if revealed hexagon then Some w
          else
            let w := mark_revealed i hexagon w in
            let w := play sounds snd_reveal w in
            if (adjacent_mines hexagon =? 0) && negb (is_mine hexagon) then
              foldl (fun ow direction =>
                match ow with
                | None => None
                | Some w =>
                    let neighbor_q := q hexagon + direction.1 in
                    let neighbor_r := r hexagon + direction.2 in
                    match find_hex (grid w) neighbor_q neighbor_r with
                    | Some (j, _) => reveal_hex depth' sounds j w
                    | None => Some w
                    end
                end) (Some w) directions
            else Some w
      end
  end.

(** ** game_over (lines 131-139): the sound; drawing and the pause are not
    modelled. *)
Definition game_over (sounds : Sounds) (w : World) : World :=
  play sounds snd_game_over w.

(** ** Floating point

    The operations of Python's [float] used by [Hex.center] and by the hit
    test of the main loop. *)
Class FloatOps (F : Type) : Type := {
  of_int : Z -> F;           (* int to float conversion *)
  lit_1_5 : F;               (* the literal 1.5 *)
  fadd : F -> F -> F;
  fsub : F -> F -> F;
  fmul : F -> F -> F;
  fdiv : F -> F -> F;
  fsqrt : F -> F;            (* math.sqrt *)
  fhypot : F -> F -> F;      (* math.hypot *)
  flt : F -> F -> bool       (* < *)
}.

(** ** The main loop (lines 141-193): event handling *)

(** The state of the main loop that the event handling touches. *)
Record Session : Type := mkSession {
  world : World;
  running : bool
}.

Inductive Event : Type :=
  | QUIT
  | KEYDOWN (key : Z)
  | MOUSEBUTTONDOWN (pos : Z * Z) (button : Z)
  | OTHER.

Definition K_ESCAPE : Z := 27.

(** [offset_x, offset_y = WIDTH // 2, HEIGHT // 2] *)
Definition offset_x : Z := WIDTH `div` 2.
Definition offset_y : Z := HEIGHT `div` 2.

(** Lines 170-174: what is done with the cell hit, the object at position
    [i]. *)
Definition on_hit (depth : nat) (sounds : Sounds) (i : nat) (hex : Hex)
    (s : Session) : option Session :=
  if is_mine hex then
    Some {| world := game_over sounds (world s); running := false |}
  else
    match reveal_hex depth sounds i (world s) with
    | Some w' => Some {| world := w'; running := running s |}
    | None => None
    end.

Section Main.
Context {F : Type} `{FloatOps F}.

(** Hex.center (lines 55-59) *)
Definition center (h : Hex) (offset_x offset_y : Z) : F * F :=
  let x := fadd (fmul (fmul (of_int HEX_SIZE) lit_1_5) (of_int (q h)))
                (of_int offset_x) in
  let y := fadd (fmul (fmul (of_int HEX_SIZE) (fsqrt (of_int 3)))
                      (fadd (of_int (r h)) (fdiv (of_int (q h)) (of_int 2))))
                (of_int offset_y) in
  (x, y).

(** The test of line 169:
    [math.hypot(mouse_x - cx, mouse_y - cy) < HEX_SIZE]. *)
Definition hit (offset_x offset_y mouse_x mouse_y : Z) (h : Hex) : bool :=
  let '(cx, cy) := center h offset_x offset_y in
  flt (fhypot (fsub (of_int mouse_x) cx) (fsub (of_int mouse_y) cy))
      (of_int HEX_SIZE).

(** The [for hex in hex_grid] loop of lines 167-175, at position [i] with
    [rest] still to visit.  Nothing is assigned before the first hit and
    the loop is left right after it ([break]), so the cells visited are
    those of the grid at the time of the click. *)
Fixpoint click_scan (depth : nat) (sounds : Sounds)
    (offset_x offset_y mouse_x mouse_y : Z)
    (i : nat) (rest : list Hex) (s : Session) : option Session :=
  match rest with
  | [] => Some s
  | hex :: rest' =>
      if hit offset_x offset_y mouse_x mouse_y hex
      then on_hit depth sounds i hex s
      else click_scan depth sounds offset_x offset_y mouse_x mouse_y
             (S i) rest' s
  end.

(** A left click at [(mouse_x, mouse_y)]. *)
Definition left_click (depth : nat) (sounds : Sounds) (mouse_x mouse_y : Z)
    (s : Session) : option Session :=
  click_scan depth sounds offset_x offset_y mouse_x mouse_y
    0%nat (grid (world s)) s.

(** The body of [for event in pygame.event.get()] (lines 158-175). *)
Definition handle_event (depth : nat) (sounds : Sounds) (e : Event)
    (s : Session) : option Session :=
  match e with
  | QUIT => Some {| world := world s; running := false |}
  | KEYDOWN key =>
      if key =? K_ESCAPE
      then Some {| world := world s; running := false |}
      else Some s
  | MOUSEBUTTONDOWN (mouse_x, mouse_y) button =>
      if button =? 1 then left_click depth sounds mouse_x mouse_y s
      else Some s
  | OTHER => Some s
  end.
End Main.

(** IEEE 754 binary64, the format of Python's [float], on Rocq's primitive
    floats, for evaluating the hit test on concrete clicks.  The conversion
    from integers is exact below [2^53] in absolute value; [math.hypot] is
    taken as the square root of the sum of the squares. *)
Definition float_of_Z (z : Z) : float :=
  if z <? 0
  then PrimFloat.opp (PrimFloat.of_uint63 (Uint63.of_Z (- z)))
  else PrimFloat.of_uint63 (Uint63.of_Z z).

Global Instance binary64 : FloatOps float := {|
  of_int := float_of_Z;
  lit_1_5 := 1.5%float;
  fadd := PrimFloat.add;
  fsub := PrimFloat.sub;
  fmul := PrimFloat.mul;
  fdiv := PrimFloat.div;
  fsqrt := PrimFloat.sqrt;
  fhypot := fun x y => PrimFloat.sqrt (PrimFloat.add (PrimFloat.mul x x) (PrimFloat.mul y y));
  flt := PrimFloat.ltb
|}.

(** Three zero cells in a row, no mines, the middle one revealed by hand: a
    board that is not flood closed. *)
Definition row_board : list Hex :=
  [Hex_init 0 0; set_revealed true (Hex_init 1 0); Hex_init 2 0].

(** A board of one cell, a mine, at the centre of the screen, and a board
    of one cell that is not a mine. *)
Definition lone_mine : Session :=
  {| world := {| grid := [set_is_mine true (Hex_init 0 0)];
                 played := []; marked := [] |};
     running := true |}.

Definition lone_cell : Session :=
  {| world := {| grid := [Hex_init 0 0]; played := []; marked := [] |};
     running := true |}.

(** Two neighbouring cells, not mines. *)
Definition two_cells : Session :=
  {| world := {| grid := [Hex_init 0 0; Hex_init 1 0]; played := []; marked := [] |};
     running := true |}.

(** All sounds loaded. *)
Definition all_sounds : Sounds := fun _ => true.

(** ** Auxiliary notions used by the statements *)

(** One column of the board: the cells with first coordinate [cq]. *)
Definition column (rings cq : Z) : list Hex :=
  Hex_init cq <$>
    filter (fun cr => - rings <= - cq - cr <= rings) (range (- rings) (rings + 1)).

(** Sum of a list of integers. *)
Definition sumZ (l : list Z) : Z := foldr Z.add 0 l.

(** Number of mine cells of a grid. *)
Definition count_mines (hex_grid : list Hex) : nat :=
  length (filter (fun h => is_mine h = true) hex_grid).

(** Number of cells not yet revealed. *)
Definition count_hidden (hex_grid : list Hex) : nat :=
  length (filter (fun h => revealed h = false) hex_grid).

(** Two cells that differ at most in the attribute named. *)
Definition same_but_mine (h h' : Hex) : Prop :=
  q h' = q h /\ r h' = r h /\ color h' = color h /\
  revealed h' = revealed h /\ adjacent_mines h' = adjacent_mines h.

(** [adj p p']: the coordinate [p'] is one of the six axial neighbours of
    [p]. *)
Definition adj (p p' : Z * Z) : Prop :=
  (p'.1 - p.1, p'.2 - p.2) ∈ directions.

Global Instance adj_dec p p' : Decision (adj p p').
Proof. unfold adj. apply _. Defined.

(** The cells of the board that are mines and neighbours of [h]. *)
Definition mine_neighbours (hex_grid : list Hex) (h : Hex) : list Hex :=
  filter (fun n => is_mine n = true /\ adj (coords h) (coords n)) hex_grid.

(** What the neighbour lookups of the adjacency count read of a cell. *)
Definition skeleton (h : Hex) : Z * Z * bool := (q h, r h, is_mine h).

(** Whether the lookup in direction [d] from [h] finds a mine. *)
Definition mine_dir (hex_grid : list Hex) (h : Hex) (d : Z * Z) : bool :=
  match find_hex hex_grid (q h + d.1) (r h + d.2) with
  | Some (_, neighbor) => is_mine neighbor
  | None => false
  end.

(** The cell [h] after its turn in [calculate_adjacent_mines]. *)
Definition settle (hex_grid : list Hex) (h : Hex) : Hex :=
  if is_mine h then h
  else set_adjacent_mines (count_adjacent hex_grid h) h.

(** The board with mines at the coordinates [ps], and a sample: radius 1
    with mines at [(1,0)] and [(0,-1)]. *)
Definition with_mines (ps : list (Z * Z)) (hex_grid : list Hex) : list Hex :=
  (fun h => set_is_mine (bool_decide (coords h ∈ ps)) h) <$> hex_grid.

Definition sample_board : list Hex :=
  with_mines [(1, 0); (0, -1)] (create_hex_grid 1).

(** The state at the start of play on a board with mines placed: adjacency
    computed, nothing revealed, empty logs. *)
Definition fresh_world (hex_grid : list Hex) : World :=
  {| grid := calculate_adjacent_mines hex_grid; played := []; marked := [] |}.

(** *** Notions for the flood fill *)

Definition revealed_at (hex_grid : list Hex) (j : nat) : Prop :=
  exists h, hex_grid !! j = Some h /\ revealed h = true.

Definition hidden_at (hex_grid : list Hex) (j : nat) : Prop :=
  exists h, hex_grid !! j = Some h /\ revealed h = false.

(** A cell from which [reveal_hex] goes on to the neighbours. *)
Definition zero_cell (h : Hex) : Prop :=
  adjacent_mines h = 0 /\ is_mine h = false.

(** The body of the loop over the directions in [reveal_hex], with [rec]
    for the recursive call. *)
Definition visit (rec : nat -> World -> option World) (hexagon : Hex)
    (ow : option World) (direction : Z * Z) : option World :=
  match ow with
  | None => None
  | Some w =>
      match find_hex (grid w) (q hexagon + direction.1) (r hexagon + direction.2) with
      | Some (j, _) => rec j w
      | None => Some w
      end
  end.

(** [edge g j k]: the cell at position [j] is a zero cell and one of its
    six neighbour lookups returns position [k]. *)
Definition edge (hex_grid : list Hex) (j k : nat) : Prop :=
  exists h d n, hex_grid !! j = Some h /\ zero_cell h /\ d ∈ directions /\
    find_hex hex_grid (q h + d.1) (r h + d.2) = Some (k, n).

(** The sounds played for the marks [new]. *)
Definition sound_log (sounds : Sounds) (new : list nat) : list SoundKey :=
  if sounds snd_reveal then (fun _ => snd_reveal) <$> new else [].

(** The cell at position [j] after the positions [new] have been marked. *)
Definition mark_in (new : list nat) (j : nat) (h : Hex) : Hex :=
  if bool_decide (j ∈ new) then set_revealed true h else h.

(** [extends sounds w w' new]: [w'] is [w] after marking the positions
    [new], each of them hidden in [w] and marked once. *)
Record extends (sounds : Sounds) (w w' : World) (new : list nat) : Prop := {
  ext_marked : marked w' = new ++ marked w;
  ext_played : played w' = sound_log sounds new ++ played w;
  ext_cells : forall j, grid w' !! j = mark_in new j <$> grid w !! j;
  ext_hidden : forall j, j ∈ new -> hidden_at (grid w) j;
  ext_nodup : NoDup new
}.

(** What a call [reveal_hex _ sounds i w] that returns [w'] has done: it
    has marked the positions [new], the target is revealed, every marked
    position is reached from [i] along edges, and every edge from a marked
    position leads to a revealed cell. *)
Record reveal_post (sounds : Sounds) (i : nat) (w w' : World) (new : list nat) : Prop := {
  post_extends : extends sounds w w' new;
  post_target : forall h, grid w !! i = Some h -> revealed_at (grid w') i;
  post_reach : forall k, k ∈ new -> rtc (edge (grid w)) i k;
  post_closed : forall j k, j ∈ new -> edge (grid w) j k -> revealed_at (grid w') k
}.

(** What every call returns, or how deep it got when it gave up. *)
Definition reveal_result (sounds : Sounds) (depth : nat) (i : nat) (w : World) : Prop :=
  match reveal_hex depth sounds i w with
  | Some w' => exists new, reveal_post sounds i w w' new
  | None => (depth <= count_hidden (grid w))%nat
  end.

(** *** The zero region of the specification, on coordinates *)

(** The board has a zero cell at the coordinate. *)
Definition zero_at (hex_grid : list Hex) (p : Z * Z) : Prop :=
  exists h, h ∈ hex_grid /\ coords h = p /\ zero_cell h.

(** The connected component of [c] among the zero cells of the board. *)
Inductive zero_region (hex_grid : list Hex) (c : Z * Z) : Z * Z -> Prop :=
  | zr_start : zero_at hex_grid c -> zero_region hex_grid c c
  | zr_step a b :
      zero_region hex_grid c a -> adj a b -> zero_at hex_grid b ->
      zero_region hex_grid c b.

(** The component together with the coordinates bordering it. *)
Definition flood_set (hex_grid : list Hex) (c p : Z * Z) : Prop :=
  exists a, zero_region hex_grid c a /\ (p = a \/ adj a p).

(** Every revealed zero cell has all its neighbours in the board revealed:
    true of a board with nothing revealed, and kept by [reveal_hex]. *)
Definition flood_closed (hex_grid : list Hex) : Prop :=
  forall h n, h ∈ hex_grid -> n ∈ hex_grid ->
    revealed h = true -> zero_cell h -> adj (coords h) (coords n) ->
    revealed n = true.

(** The boards met in play. *)
Definition playable (hex_grid : list Hex) : Prop :=
  NoDup (coords <$> hex_grid) /\ flood_closed hex_grid.

(** The attributes of a cell that [reveal_hex] never assigns. *)
Definition static (h : Hex) : Z * Z * bool * Z :=
  (q h, r h, is_mine h, adjacent_mines h).

(** ** Further parts of the program *)

(** *** load_sounds (lines 22-35)

    [file_exists] stands for [os.path.exists]; a loaded
    [pygame.mixer.Sound(file)] is recorded by its file name. *)

Inductive SoundObj : Type := Sound (file : string).

(** The dictionary literal [sound_files], in insertion order. *)
Definition sound_files : list (string * string) :=
  [("click", "click.wav"); ("reveal", "reveal.wav");
   ("game_over", "game_over.wav")]%string.

Definition load_sounds (file_exists : string -> bool)
    : gmap string (option SoundObj) :=
  foldl (fun sounds '(key, file) =>
    if file_exists file
    then <[key := Some (Sound file)]> sounds
    else <[key := None]> sounds) ∅ sound_files.

(** The key under which the program looks a sound up, and the view of the
    dictionary used by [reveal_hex] and [game_over]: whether
    [sounds[key]] is a sound. *)
Definition key_name (k : SoundKey) : string :=
  match k with
  | snd_click => "click"
  | snd_reveal => "reveal"
  | snd_game_over => "game_over"
  end%string.

Definition sounds_of (d : gmap string (option SoundObj)) : Sounds :=
  fun k => match d !! key_name k with
           | Some (Some _) => true
           | _ => false
           end.

(** *** Drawing (lines 50-53 and 61-81)

    The calls made on the screen are recorded as a list of commands.  The
    size of a rendered text is given by [text_width] and [text_height]. *)

Class FloatTrig (F : Type) : Type := {
  fpi : F;                   (* math.pi *)
  fcos : F -> F;             (* math.cos *)
  fsin : F -> F;             (* math.sin *)
  ftrunc : F -> Z            (* int(x) *)
}.

Inductive DrawCmd (F : Type) : Type :=
  | Polygon (colour : Z * Z * Z) (points : list (F * F)) (width : Z)
  | Blit (number : Z) (x y : F)     (* the rendered text [str(number)] *)
  | Circle (colour : Z * Z * Z) (cx cy : Z) (radius : Z).
Arguments Polygon {F} colour points width.
Arguments Blit {F} number x y.
Arguments Circle {F} colour cx cy radius.

Section Draw.
Context {F : Type} `{FloatOps F} `{FloatTrig F}.
Variables text_width text_height : Z -> Z.

(** Hex.corners (lines 50-53) *)
Definition corners (center_x center_y : F) : list (F * F) :=
  (fun i =>
     (fadd center_x
        (fmul (of_int HEX_SIZE) (fcos (fmul (fdiv fpi (of_int 3)) (of_int i)))),
      fadd center_y
        (fmul (of_int HEX_SIZE) (fsin (fmul (fdiv fpi (of_int 3)) (of_int i))))))
  <$> range 0 6.

(** draw_hexagon (lines 61-81) *)
Definition draw_hexagon (hexagon : Hex) (offset_x offset_y : Z)
    (debug_mode : bool) : list (DrawCmd F) :=
  let '(cx, cy) := center hexagon offset_x offset_y in
  let cs := corners cx cy in
  (if revealed hexagon then
     if is_mine hexagon then [Polygon (255, 0, 0) cs 0]
     else
       Polygon (200, 200, 200) cs 0 ::
       (if 0 <? adjacent_mines hexagon then
          [Blit (adjacent_mines hexagon)
             (fsub cx (of_int (text_width (adjacent_mines hexagon) `div` 2)))
             (fsub cy (of_int (text_height (adjacent_mines hexagon) `div` 2)))]
        else [])
   else [Polygon (color hexagon) cs 0; Polygon (0, 0, 0) cs 1])
  ++ (if debug_mode && is_mine hexagon
      then [Circle (0, 0, 255) (ftrunc cx) (ftrunc cy) (HEX_SIZE `div` 4)]
      else []).

(** The loop of lines 180-181. *)
Definition draw_all (hex_grid : list Hex) (debug_mode : bool)
    : list (DrawCmd F) :=
  hex_grid ≫= (fun hexagon => draw_hexagon hexagon offset_x offset_y debug_mode).
End Draw.

(** For the evaluation of drawings on concrete boards: [int(x)] read off
    the binary representation, and [math.cos], [math.sin] replaced by the
    first terms of their power series. *)
Definition float_trunc (x : float) : Z :=
  match Prim2SF x with
  | S754_finite s m e =>
      let v := if 0 <=? e then Z.shiftl (Z.pos m) e
               else Z.shiftr (Z.pos m) (- e) in
      if s then - v else v
  | _ => 0
  end.

Definition float_cos_series (x : float) : float :=
  let x2 := PrimFloat.mul x x in
  PrimFloat.sub 1
    (PrimFloat.mul x2
       (PrimFloat.sub 0.5
          (PrimFloat.mul x2
             (PrimFloat.sub (PrimFloat.div 1 24) (PrimFloat.div x2 720))))).

Definition float_sin_series (x : float) : float :=
  let x2 := PrimFloat.mul x x in
  PrimFloat.mul x
    (PrimFloat.sub 1
       (PrimFloat.mul x2
          (PrimFloat.sub (PrimFloat.div 1 6)
             (PrimFloat.mul x2
                (PrimFloat.sub (PrimFloat.div 1 120) (PrimFloat.div x2 5040)))))).

Global Instance binary64_trig : FloatTrig float := {|
  fpi := 0x1.921fb54442d18p+1%float;
  fcos := float_cos_series;
  fsin := float_sin_series;
  ftrunc := float_trunc
|}.

(** *** The frames of the main loop (lines 152-175) *)

(** Lines 152-154: the board of five rings, mines placed, counts computed,
    with the loop about to start. *)
Definition main_setup (draws : list nat) : outcome Session :=
  match place_mines draws (create_hex_grid 5) NUM_MINES with
  | Returned hex_grid =>
      Returned {| world := {| grid := calculate_adjacent_mines hex_grid;
                              played := []; marked := [] |};
                  running := true |}
  | Raised e => Raised e
  | Running hex_grid =>
      Running {| world := {| grid := hex_grid; played := []; marked := [] |};
                 running := true |}
  end.

Section Frames.
Context {F : Type} `{FloatOps F}.

(** [for event in pygame.event.get()]: every event of the batch is handled,
    whatever [running] has become. *)
Definition handle_events (depth : nat) (sounds : Sounds) (events : list Event)
    (s : Session) : option Session :=
  foldl (fun os event =>
    match os with
    | Some s => handle_event depth sounds event s
    | None => None
    end) (Some s) events.

(** [while running:] over the batches of events that the successive frames
    receive; when the batches are used up the state reached is returned,
    with [running] telling whether the loop has ended. *)
Fixpoint main_loop (depth : nat) (sounds : Sounds) (frames : list (list Event))
    (s : Session) : option Session :=
  if running s then
    match frames with
    | [] => Some s
    | events :: frames' =>
        match handle_events depth sounds events s with
        | Some s' => main_loop depth sounds frames' s'
        | None => None
        end
    end
  else Some s.
End Frames.

(** *** Notions for the statements about play *)

(** The adjacency counts of the cells that are not mines are the computed
    ones. *)
Definition adjacency_ok (hex_grid : list Hex) : Prop :=
  forall h, h ∈ hex_grid -> is_mine h = false ->
            adjacent_mines h = count_adjacent hex_grid h.

(** No mine is revealed. *)
Definition no_revealed_mine (hex_grid : list Hex) : Prop :=
  forall h, h ∈ hex_grid -> is_mine h = true -> revealed h = false.

(** The hexagonal region of radius [R]. *)
Definition in_region (R : Z) (p : Z * Z) : Prop :=
  - R <= p.1 <= R /\ - R <= p.2 <= R /\ - R <= - p.1 - p.2 <= R.

(** Distance to the centre, doubled. *)
Definition span (p : Z * Z) : Z := Z.abs p.1 + Z.abs p.2 + Z.abs (p.1 + p.2).

(** What the player may see of a cell: its place, whether it is revealed,
    and then its mine and count if it is, its colour if it is not. *)
Definition same_view (h1 h2 : Hex) : Prop :=
  q h1 = q h2 /\ r h1 = r h2 /\ revealed h1 = revealed h2 /\
  if revealed h1
  then is_mine h1 = is_mine h2 /\ adjacent_mines h1 = adjacent_mines h2
  else color h1 = color h2.

(** The order in which [create_hex_grid] lists the cells: by [q], then by
    [r]. *)
Definition before (h1 h2 : Hex) : Prop :=
  q h1 < q h2 \/ (q h1 = q h2 /\ r h1 < r h2).

(** * Properties *)

(** ** Board construction *)

Lemma foldl_snoc_if {A B} (c : B -> bool) (f : B -> A) (l : list B) (acc : list A) :
  foldl (fun acc x => if c x then acc ++ [f x] else acc) acc l
  = acc ++ (f <$> filter (fun x => c x = true) l).
Proof.
  revert acc. induction l as [|x l IH]; intros acc; simpl.
  - by rewrite app_nil_r.
  - rewrite IH. rewrite filter_cons. destruct (c x) eqn:E.
    + rewrite decide_True by done. simpl. by rewrite <- app_assoc.
    + rewrite decide_False by congruence. done.
Qed.

Lemma foldl_app_bind {A B} (f : B -> list A) (l : list B) (acc : list A) :
  foldl (fun acc x => acc ++ f x) acc l = acc ++ (l ≫= f).
Proof.
  revert acc. induction l as [|x l IH]; intros acc; simpl.
  - by rewrite app_nil_r.
  - rewrite IH. by rewrite <- app_assoc.
Qed.

Lemma column_loop rings cq (hex_set : list Hex) :
  foldl (fun hex_set cr =>
      if (- rings <=? - cq - cr) && (- cq - cr <=? rings)
      then hex_set ++ [Hex_init cq cr] else hex_set)
    hex_set (range (- rings) (rings + 1))
  = hex_set ++ column rings cq.
Proof.
  rewrite (foldl_snoc_if (fun cr => (- rings <=? - cq - cr) && (- cq - cr <=? rings))
             (Hex_init cq)).
  unfold column. do 2 f_equal.
  apply list_filter_iff. intros cr.
  rewrite andb_true_iff, !Z.leb_le. done.
Qed.

Lemma columns_loop rings (l : list Z) (acc : list Hex) :
  foldl (fun hex_set cq =>
    foldl (fun hex_set cr =>
      if (- rings <=? - cq - cr) && (- cq - cr <=? rings)
      then hex_set ++ [Hex_init cq cr] else hex_set)
      hex_set (range (- rings) (rings + 1))) acc l
  = acc ++ (l ≫= column rings).
Proof.
  revert acc. induction l as [|cq l IH]; intros acc; simpl.
  - by rewrite app_nil_r.
  - rewrite IH, column_loop. by rewrite <- app_assoc.
Qed.

Lemma create_hex_grid_columns rings :
  create_hex_grid rings = range (- rings) (rings + 1) ≫= column rings.
Proof. unfold create_hex_grid. cbv zeta. by rewrite columns_loop. Qed.

Lemma filter_seqZ_interval (a b m n : Z) :
  filter (fun x => a <= x <= b) (seqZ m n)
  = seqZ (Z.max a m) (Z.min (b + 1) (m + n) - Z.max a m).
Proof.
  remember (Z.to_nat n) as k eqn:Hk. revert m n Hk.
  induction k as [|k IH]; intros m n Hk.
  - rewrite (seqZ_nil m n) by lia. rewrite seqZ_nil by lia. done.
  - rewrite (seqZ_cons m n) by lia. rewrite filter_cons.
    rewrite (IH (Z.succ m) (Z.pred n)) by lia.
    destruct (decide (a <= m <= b)) as [Hin|Hout].
    + rewrite (seqZ_cons (Z.max a m)) by lia.
      f_equal; [lia|]. f_equal; lia.
    + destruct (decide (m < a)).
      * f_equal; lia.
      * rewrite !seqZ_nil by lia. done.
Qed.

Lemma column_seqZ (rings cq : Z) :
  column rings cq
  = Hex_init cq <$> seqZ (Z.max (- cq - rings) (- rings))
                         (Z.min (rings - cq + 1) (rings + 1)
                          - Z.max (- cq - rings) (- rings)).
Proof.
  unfold column, range. f_equal.
  rewrite (list_filter_iff _ (fun x => - cq - rings <= x <= rings - cq))
    by (intros cr; lia).
  rewrite filter_seqZ_interval. f_equal; lia.
Qed.

Lemma length_column (rings cq : Z) :
  - rings <= cq <= rings ->
  Z.of_nat (length (column rings cq)) = 2 * rings + 1 - Z.abs cq.
Proof.
  intros Hcq. rewrite column_seqZ, length_fmap, length_seqZ. lia.
Qed.

Lemma sumZ_app (l1 l2 : list Z) : sumZ (l1 ++ l2) = sumZ l1 + sumZ l2.
Proof. unfold sumZ. induction l1 as [|x l1 IH]; simpl; lia. Qed.

Lemma length_bind_sumZ {A B} (f : A -> list B) (l : list A) :
  Z.of_nat (length (l ≫= f)) = sumZ ((fun x => Z.of_nat (length (f x))) <$> l).
Proof.
  induction l as [|x l IH]; [done|].
  rewrite bind_cons, fmap_cons, length_app, Nat2Z.inj_add, IH. done.
Qed.

(** Twice the sum of an arithmetic progression read off a function on an
    interval. *)
Lemma sumZ_progression (g : Z -> Z) (c s m : Z) (n : nat) :
  (forall k, m <= k < m + Z.of_nat n -> g k = c + s * (k - m)) ->
  2 * sumZ (g <$> seqZ m (Z.of_nat n))
  = Z.of_nat n * (2 * c + s * (Z.of_nat n - 1)).
Proof.
  induction n as [|n IH]; intros Hg.
  - done.
  - rewrite seqZ_S, fmap_app, sumZ_app. simpl.
    rewrite Z.mul_add_distr_l, IH by (intros; apply Hg; lia).
    rewrite (Hg (m + Z.of_nat n)) by lia. nia.
Qed.

Lemma length_create_hex_grid (rings : Z) :
  0 <= rings ->
  Z.of_nat (length (create_hex_grid rings)) = 3 * rings * rings + 3 * rings + 1.
Proof.
  intros Hr. rewrite create_hex_grid_columns, length_bind_sumZ.
  unfold range.
  replace (rings + 1 - - rings) with (rings + (rings + 1)) by lia.
  rewrite seqZ_app by lia. rewrite fmap_app, sumZ_app.
  replace (- rings + rings) with 0 by lia.
  pose proof (sumZ_progression
    (fun x => Z.of_nat (length (column rings x))) (rings + 1) 1 (- rings)
    (Z.to_nat rings)) as Hneg.
  pose proof (sumZ_progression
    (fun x => Z.of_nat (length (column rings x))) (2 * rings + 1) (-1) 0
    (Z.to_nat (rings + 1))) as Hpos.
  rewrite !Z2Nat.id in Hneg, Hpos by lia.
  specialize (Hneg ltac:(intros; rewrite length_column; lia)).
  specialize (Hpos ltac:(intros; rewrite length_column; lia)).
  nia.
Qed.

Lemma elem_of_create_hex_grid (rings : Z) (h : Hex) :
  h ∈ create_hex_grid rings <->
  h = Hex_init (q h) (r h) /\
  - rings <= q h <= rings /\ - rings <= r h <= rings /\
  - rings <= - q h - r h <= rings.
Proof.
  rewrite create_hex_grid_columns, list_elem_of_bind. unfold column, range.
  split.
  - intros (cq & Hh & Hcq).
    apply list_elem_of_fmap in Hh as (cr & -> & Hcr).
    apply list_elem_of_filter in Hcr as [Hs Hcr].
    apply elem_of_seqZ in Hcq, Hcr. simpl. split; [done|lia].
  - intros (Hh & Hq & Hr & Hs). exists (q h). split.
    + rewrite Hh at 1. apply list_elem_of_fmap_2.
      apply list_elem_of_filter. split; [done|]. apply elem_of_seqZ. lia.
    + apply elem_of_seqZ. lia.
Qed.

Lemma NoDup_create_hex_grid (rings : Z) : NoDup (create_hex_grid rings).
Proof.
  rewrite create_hex_grid_columns. apply NoDup_bind.
  - intros cq1 cq2 h _ _ H1 H2. unfold column in *.
    apply list_elem_of_fmap in H1 as (? & -> & _).
    apply list_elem_of_fmap in H2 as (? & Heq & _).
    by injection Heq.
  - intros cq _. unfold column. apply NoDup_fmap_2_strong.
    + intros x y _ _ Heq. by injection Heq.
    + apply NoDup_filter, NoDup_seqZ.
  - apply NoDup_seqZ.
Qed.

Lemma NoDup_coords_create_hex_grid (rings : Z) :
  NoDup (coords <$> create_hex_grid rings).
Proof.
  apply NoDup_fmap_2_strong; [|apply NoDup_create_hex_grid].
  intros h1 h2 H1 H2 Heq.
  apply elem_of_create_hex_grid in H1 as [E1 _], H2 as [E2 _].
  rewrite E1, E2. unfold coords in Heq. congruence.
Qed.

(** C5: for every radius [R >= 0], [create_hex_grid R] has exactly
    [3R^2 + 3R + 1] cells, no two of them at the same [(q, r)], each within
    the hexagonal region [|q| <= R], [|r| <= R], [|q + r| <= R], and each in
    its initial state: not a mine, not revealed, adjacency count 0. *)
Theorem create_hex_grid_spec (R : Z) :
  0 <= R ->
  Z.of_nat (length (create_hex_grid R)) = 3 * R * R + 3 * R + 1 /\
  NoDup (coords <$> create_hex_grid R) /\
  Forall (fun h =>
            Z.abs (q h) <= R /\ Z.abs (r h) <= R /\ Z.abs (q h + r h) <= R /\
            is_mine h = false /\ revealed h = false /\ adjacent_mines h = 0)
         (create_hex_grid R).
Proof.
  intros HR. split; [by apply length_create_hex_grid|]. split.
  - apply NoDup_coords_create_hex_grid.
  - apply Forall_forall. intros h Hh.
    apply elem_of_create_hex_grid in Hh as (Hh & ? & ? & ?).
    split_and!; try lia; by rewrite Hh.
Qed.

Lemma create_hex_grid_spec_witness :
  Z.of_nat (length (create_hex_grid 1)) = 3 * 1 * 1 + 3 * 1 + 1 /\
  NoDup (coords <$> create_hex_grid 1) /\
  Forall (fun h =>
            Z.abs (q h) <= 1 /\ Z.abs (r h) <= 1 /\ Z.abs (q h + r h) <= 1 /\
            is_mine h = false /\ revealed h = false /\ adjacent_mines h = 0)
         (create_hex_grid 1).
Proof. apply (create_hex_grid_spec 1). lia. Defined.

(** ** Mine placement *)

Lemma count_mines_insert (g : list Hex) (i : nat) (h : Hex) :
  g !! i = Some h -> is_mine h = false ->
  count_mines (<[i := set_is_mine true h]> g) = S (count_mines g).
Proof.
  unfold count_mines. revert i. induction g as [|x g IH]; intros i Hi Hm; [done|].
  destruct i as [|i]; simpl in *.
  - injection Hi as ->. rewrite !filter_cons. simpl.
    destruct (decide (is_mine h = true)); [congruence|done].
  - rewrite !filter_cons. specialize (IH i Hi Hm).
    destruct (decide (is_mine x = true)); simpl; by rewrite IH.
Qed.

Lemma count_mines_le_length (g : list Hex) : (count_mines g <= length g)%nat.
Proof. apply length_filter. Qed.

(** What a normal return of the loop guarantees. *)
Lemma place_mines_loop_returned (draws : list nat) (g g' : list Hex) (n p : Z) :
  place_mines_loop draws g n p = Returned g' ->
  length g' = length g /\
  (forall i h, g !! i = Some h ->
     exists h', g' !! i = Some h' /\ same_but_mine h h' /\
                (is_mine h = true -> is_mine h' = true)) /\
  Z.of_nat (count_mines g') = Z.of_nat (count_mines g) + Z.max 0 (n - p).
Proof.
  revert g p. induction draws as [|k draws IH]; intros g p; simpl.
  - destruct (p <? n) eqn:Hp; [done|]. intros [= <-].
    apply Z.ltb_ge in Hp. split_and!; [done| |lia].
    intros i h Hi. exists h. by repeat split.
  - destruct (p <? n) eqn:Hp.
    + apply Z.ltb_lt in Hp.
      destruct (g !! (k mod length g)%nat) as [hexagon|] eqn:Hk; [|done].
      destruct (is_mine hexagon) eqn:Hm.
      * intros Hret. destruct (IH _ _ Hret) as (Hlen & Hcells & Hcount).
        split_and!; [done..|lia].
      * intros Hret. destruct (IH _ _ Hret) as (Hlen & Hcells & Hcount).
        rewrite length_insert in Hlen.
        rewrite (count_mines_insert _ _ _ Hk Hm) in Hcount.
        split_and!; [done| |lia].
        intros i h Hi.
        destruct (decide (i = (k mod length g)%nat)) as [->|Hne].
        -- assert (h = hexagon) as -> by congruence.
           destruct (Hcells (k mod length g)%nat (set_is_mine true hexagon))
             as (h' & Hh' & Hsame & Hmine).
           { apply list_lookup_insert_eq. by eapply lookup_lt_Some. }
           exists h'. split; [done|]. split; [|auto].
           unfold same_but_mine in *. simpl in Hsame. done.
        -- apply Hcells. by rewrite list_lookup_insert_ne.
    + intros [= <-]. apply Z.ltb_ge in Hp. split_and!; [done| |lia].
      intros i h Hi. exists h. by repeat split.
Qed.

(** C6: on a board without mines and for a count [C] not larger than the
    board, a call of [place_mines] that returns leaves exactly [C] cells
    with [is_mine] set; no cell that was a mine stops being one, and no
    other attribute of any cell changes. *)
Theorem place_mines_exact (draws : list nat) (g g' : list Hex) (C : Z) :
  Forall (fun h => is_mine h = false) g ->
  0 <= C <= Z.of_nat (length g) ->
  place_mines draws g C = Returned g' ->
  length g' = length g /\
  Z.of_nat (count_mines g') = C /\
  (forall i h, g !! i = Some h ->
     exists h', g' !! i = Some h' /\ same_but_mine h h' /\
                (is_mine h = true -> is_mine h' = true)).
Proof.
  intros Hfree HC Hret.
  destruct (place_mines_loop_returned _ _ _ _ _ Hret) as (Hlen & Hcells & Hcount).
  split_and!; [done| |done].
  assert (count_mines g = 0%nat) as Hz.
  { unfold count_mines. clear -Hfree. induction Hfree as [|x g Hx _ IH]; [done|].
    rewrite filter_cons, decide_False by congruence. done. }
  rewrite Hz in Hcount. lia.
Qed.

Lemma place_mines_exact_witness :
  Forall (fun h => is_mine h = false) (create_hex_grid 1) /\
  0 <= 3 <= Z.of_nat (length (create_hex_grid 1)) /\
  exists g',
    place_mines [0; 0; 5; 2]%nat (create_hex_grid 1) 3 = Returned g' /\
    length g' = length (create_hex_grid 1) /\
    Z.of_nat (count_mines g') = 3.
Proof.
  assert (Forall (fun h => is_mine h = false) (create_hex_grid 1)) as Hfree.
  { apply Forall_forall. intros h Hh.
    apply elem_of_create_hex_grid in Hh as [-> _]. done. }
  assert (0 <= 3 <= Z.of_nat (length (create_hex_grid 1))) as HC.
  { vm_compute. split; discriminate. }
  split; [done|]. split; [done|].
  eexists. split; [vm_compute; reflexivity|].
  refine (let H := place_mines_exact [0; 0; 5; 2]%nat (create_hex_grid 1) _ 3
                     Hfree HC _ in conj (proj1 H) (proj1 (proj2 H))).
  vm_compute. reflexivity.
Defined.

(** With more mines asked for than the board has cells, the loop cannot
    exit. *)
Lemma place_mines_overfull (draws : list nat) (g g' : list Hex) (n : Z) :
  Z.of_nat (length g) < n -> place_mines draws g n <> Returned g'.
Proof.
  intros Hn Hret.
  destruct (place_mines_loop_returned _ _ _ _ _ Hret) as (Hlen & _ & Hcount).
  pose proof (count_mines_le_length g'). lia.
Qed.

Lemma place_mines_loop_no_raise (draws : list nat) (g : list Hex) (n p : Z) (e : exn) :
  g <> [] -> place_mines_loop draws g n p <> Raised e.
Proof.
  revert g p. induction draws as [|k draws IH]; intros g p Hg; simpl.
  - by destruct (p <? n).
  - destruct (p <? n); [|done].
    destruct (g !! (k mod length g)%nat) as [hexagon|] eqn:Hk.
    + destruct (is_mine hexagon); apply IH; [done|].
      intros Hnil. apply (f_equal length) in Hnil.
      rewrite length_insert in Hnil. by destruct g.
    + apply lookup_ge_None in Hk.
      assert (length g <> 0)%nat by (by destruct g).
      pose proof (Nat.mod_upper_bound k (length g)). lia.
Qed.

(** On a board with at least one cell, a call that asks for more mines than
    there are cells is still in its loop after any number of draws. *)
Lemma place_mines_overfull_runs (draws : list nat) (g : list Hex) (n : Z) :
  g <> [] -> Z.of_nat (length g) < n ->
  exists g', place_mines draws g n = Running g'.
Proof.
  intros Hg Hn. destruct (place_mines draws g n) as [g'|e|g'] eqn:E.
  - by apply place_mines_overfull in E.
  - by apply place_mines_loop_no_raise in E.
  - by exists g'.
Qed.






(** ** Adjacency counts *)

Lemma find_hex_cons (x : Hex) (g : list Hex) (nq nr : Z) :
  find_hex (x :: g) nq nr =
  if decide (at_coord nq nr x) then Some (0%nat, x)
  else prod_map S id <$> find_hex g nq nr.
Proof. done. Qed.

(** The lookup reads coordinates only: on grids with the same skeleton it
    finds the same position, holding a cell with the same skeleton. *)
Lemma find_hex_skeleton (g1 g2 : list Hex) (nq nr : Z) :
  skeleton <$> g1 = skeleton <$> g2 ->
  prod_map id skeleton <$> find_hex g1 nq nr
  = prod_map id skeleton <$> find_hex g2 nq nr.
Proof.
  revert g2. induction g1 as [|x g1 IH]; intros [|y g2] Hs; try done.
  rewrite !fmap_cons in Hs.
  apply (inj2 cons) in Hs as [Hxy Hs]. specialize (IH g2 Hs).
  rewrite !find_hex_cons.
  assert (at_coord nq nr x <-> at_coord nq nr y) as Hiff.
  { unfold at_coord, skeleton in *. split; intros [<- <-]; split; congruence. }
  destruct (decide (at_coord nq nr x)), (decide (at_coord nq nr y));
    try tauto; simpl.
  - by rewrite Hxy.
  - destruct (find_hex g1 nq nr) as [[i a]|], (find_hex g2 nq nr) as [[j b]|];
      simpl in *; congruence.
Qed.

Lemma mine_dir_skeleton (g1 g2 : list Hex) (h1 h2 : Hex) (d : Z * Z) :
  skeleton <$> g1 = skeleton <$> g2 -> coords h1 = coords h2 ->
  mine_dir g1 h1 d = mine_dir g2 h2 d.
Proof.
  intros Hs Hc. unfold mine_dir. injection Hc as -> ->.
  pose proof (find_hex_skeleton g1 g2 (q h2 + d.1) (r h2 + d.2) Hs) as Hf.
  destruct (find_hex g1 _ _) as [[i a]|], (find_hex g2 _ _) as [[j b]|];
    simpl in Hf; try done.
  unfold skeleton in Hf. congruence.
Qed.

Lemma count_adjacent_loop (g : list Hex) (h : Hex) (l : list (Z * Z)) (acc : Z) :
  foldl (fun adjacent_count direction =>
    match find_hex g (q h + direction.1) (r h + direction.2) with
    | Some (_, neighbor) =>
        if is_mine neighbor then adjacent_count + 1 else adjacent_count
    | None => adjacent_count
    end) acc l
  = acc + Z.of_nat (length (filter (fun d => mine_dir g h d = true) l)).
Proof.
  revert acc. induction l as [|d l IH]; intros acc; simpl; [lia|].
  rewrite IH, filter_cons.
  assert (mine_dir g h d =
          match find_hex g (q h + d.1) (r h + d.2) with
          | Some (_, neighbor) => is_mine neighbor
          | None => false
          end) as Hd by done.
  destruct (find_hex g _ _) as [[i n]|].
  - destruct (is_mine n).
    + rewrite decide_True by done. simpl length. lia.
    + rewrite decide_False by congruence. done.
  - rewrite decide_False by congruence. done.
Qed.

(** The inner loop counts the directions in which the lookup finds a mine. *)
Lemma count_adjacent_dirs (g : list Hex) (h : Hex) :
  count_adjacent g h
  = Z.of_nat (length (filter (fun d => mine_dir g h d = true) directions)).
Proof. unfold count_adjacent. cbv zeta. by rewrite count_adjacent_loop. Qed.

Lemma count_adjacent_bounds (g : list Hex) (h : Hex) :
  0 <= count_adjacent g h <= 6.
Proof.
  rewrite count_adjacent_dirs.
  pose proof (length_filter (fun d => mine_dir g h d = true) directions) as Hle.
  simpl length in Hle. lia.
Qed.

Lemma count_adjacent_skeleton (g1 g2 : list Hex) (h1 h2 : Hex) :
  skeleton <$> g1 = skeleton <$> g2 -> coords h1 = coords h2 ->
  count_adjacent g1 h1 = count_adjacent g2 h2.
Proof.
  intros Hs Hc. rewrite !count_adjacent_dirs. do 2 f_equal.
  apply list_filter_iff. intros d. by rewrite (mine_dir_skeleton g1 g2 h1 h2).
Qed.

Lemma skeleton_settle (g : list Hex) (h : Hex) : skeleton (settle g h) = skeleton h.
Proof. unfold settle. by destruct (is_mine h). Qed.

Lemma skeleton_settled_prefix (g : list Hex) (k : nat) :
  skeleton <$> ((settle g <$> take k g) ++ drop k g) = skeleton <$> g.
Proof.
  rewrite fmap_app, <- list_fmap_compose.
  rewrite (list_fmap_ext (skeleton ∘ settle g) skeleton (take k g))
    by (intros; simpl; apply skeleton_settle).
  by rewrite <- fmap_app, take_drop.
Qed.

(** The outer loop from position [k] on, the first [k] cells being done. *)
Lemma calculate_adjacent_mines_loop (g : list Hex) (m k : nat) :
  (k + m)%nat = length g ->
  foldl (fun g i =>
    match g !! i with
    | Some hexagon =>
        if is_mine hexagon then g
        else <[i := set_adjacent_mines (count_adjacent g hexagon) hexagon]> g
    | None => g
    end) ((settle g <$> take k g) ++ drop k g) (seq k m)
  = settle g <$> g.
Proof.
  revert k. induction m as [|m IH]; intros k Hk; simpl.
  - rewrite take_ge, drop_ge, app_nil_r by lia. done.
  - destruct (lookup_lt_is_Some_2 g k) as [h Hh]; [lia|].
    rewrite lookup_app_r; rewrite length_fmap, length_take; [|lia].
    replace (k - k `min` length g)%nat with 0%nat by lia.
    rewrite lookup_drop, Nat.add_0_r, Hh.
    rewrite <- (IH (S k)) by lia. f_equal.
    rewrite (take_S_r _ _ _ Hh), fmap_app, <- app_assoc.
    rewrite (drop_S _ _ _ Hh). simpl.
    destruct (is_mine h) eqn:Hm.
    + unfold settle. by rewrite Hm.
    + rewrite insert_app_r_alt; rewrite length_fmap, length_take; [|lia].
      replace (k - k `min` length g)%nat with 0%nat by lia. simpl.
      do 2 f_equal. unfold settle. rewrite Hm. f_equal.
      apply count_adjacent_skeleton; [|done].
      rewrite <- (skeleton_settled_prefix g k).
      by rewrite (drop_S _ _ _ Hh).
Qed.

(** The whole pass settles every cell against the grid it started from. *)
Lemma calculate_adjacent_mines_settle (g : list Hex) :
  calculate_adjacent_mines g = settle g <$> g.
Proof.
  unfold calculate_adjacent_mines.
  pose proof (calculate_adjacent_mines_loop g (length g) 0 eq_refl) as Hl.
  by rewrite take_0, drop_0 in Hl.
Qed.

(** *** Boards with pairwise distinct coordinates *)

Lemma NoDup_coords_inj (g : list Hex) (a b : Hex) :
  NoDup (coords <$> g) -> a ∈ g -> b ∈ g -> coords a = coords b -> a = b.
Proof.
  intros Hnd [i Hi]%list_elem_of_lookup [j Hj]%list_elem_of_lookup Hc.
  assert (i = j) as ->.
  { apply (NoDup_lookup (coords <$> g) i j (coords a)); [done|..];
      rewrite list_lookup_fmap; [by rewrite Hi|by rewrite Hj, Hc]. }
  congruence.
Qed.

Lemma NoDup_coords_index (g : list Hex) (i j : nat) (a b : Hex) :
  NoDup (coords <$> g) -> g !! i = Some a -> g !! j = Some b ->
  coords a = coords b -> i = j.
Proof.
  intros Hnd Hi Hj Hc.
  apply (NoDup_lookup (coords <$> g) i j (coords a)); [done|..];
    rewrite list_lookup_fmap; [by rewrite Hi|by rewrite Hj, Hc].
Qed.

Lemma find_hex_Some (g : list Hex) (nq nr : Z) (i : nat) (n : Hex) :
  find_hex g nq nr = Some (i, n) -> g !! i = Some n /\ coords n = (nq, nr).
Proof.
  unfold find_hex. intros (Hi & [Hq Hr] & _)%list_find_Some.
  split; [done|]. unfold coords. by rewrite Hq, Hr.
Qed.

Lemma find_hex_None (g : list Hex) (nq nr : Z) (n : Hex) :
  find_hex g nq nr = None -> n ∈ g -> coords n <> (nq, nr).
Proof.
  unfold find_hex. intros Hnone%list_find_None Hn [= Hq Hr].
  by apply (proj1 (Forall_forall _ _) Hnone n Hn).
Qed.

Lemma find_hex_lookup (g : list Hex) (i : nat) (n : Hex) :
  NoDup (coords <$> g) -> g !! i = Some n ->
  find_hex g (q n) (r n) = Some (i, n).
Proof.
  intros Hnd Hi.
  destruct (find_hex g (q n) (r n)) as [[j m]|] eqn:E.
  - apply find_hex_Some in E as [Hj Hc].
    assert (j = i) as -> by (by eapply NoDup_coords_index).
    congruence.
  - exfalso. eapply find_hex_None; [done| |done].
    apply list_elem_of_lookup. eauto.
Qed.

Lemma NoDup_directions : NoDup directions.
Proof. apply (bool_decide_unpack _). vm_compute. done. Qed.

(** With distinct coordinates, the directions in which the lookup finds a
    mine are as many as the mine cells of the board next to [h]. *)
Lemma count_dirs_cells (g : list Hex) (h : Hex) :
  NoDup (coords <$> g) ->
  length (filter (fun d => mine_dir g h d = true) directions)
  = length (mine_neighbours g h).
Proof.
  intros Hnd.
  set (shift := fun d : Z * Z => (q h + d.1, r h + d.2)).
  rewrite <- (length_fmap shift), <- (length_fmap coords (mine_neighbours g h)).
  apply Permutation_length, NoDup_Permutation.
  - apply NoDup_fmap_2_strong.
    + intros [a b] [c d] _ _ [= ? ?]. f_equal; lia.
    + apply NoDup_filter, NoDup_directions.
  - eapply sublist_NoDup; [exact Hnd|].
    apply fmap_sublist, sublist_filter.
  - intros p. rewrite !list_elem_of_fmap. split.
    + intros (d & -> & Hd). apply list_elem_of_filter in Hd as [Hm Hd].
      unfold mine_dir in Hm.
      destruct (find_hex g _ _) as [[i n]|] eqn:E; [|done].
      apply find_hex_Some in E as [Hi Hc].
      exists n. split; [done|]. apply list_elem_of_filter.
      split; [|by eapply list_elem_of_lookup_2].
      split; [done|]. unfold adj. rewrite Hc. simpl.
      replace (q h + d.1 - q h, r h + d.2 - r h) with d; [done|].
      destruct d; simpl; f_equal; lia.
    + intros (n & -> & Hn). apply list_elem_of_filter in Hn as [[Hm Ha] Hn].
      exists (q n - q h, r n - r h). split.
      { unfold shift, coords. simpl. f_equal; lia. }
      apply list_elem_of_filter. split; [|exact Ha].
      unfold mine_dir. simpl.
      replace (q h + (q n - q h)) with (q n) by lia.
      replace (r h + (r n - r h)) with (r n) by lia.
      apply list_elem_of_lookup in Hn as [i Hi].
      by rewrite (find_hex_lookup g i n Hnd Hi).
Qed.

(** C4: after [calculate_adjacent_mines], the [adjacent_mines] of every cell
    that is not a mine is the number of the six axial directions
    (1,0), (0,1), (-1,1), (-1,0), (0,-1), (1,-1) in which the board has a
    mine, a number between 0 and 6; a direction with no cell in the board
    counts for nothing.  On a board with pairwise distinct coordinates this
    is the number of board cells that are mines and neighbours of the cell.
    The pass changes no other attribute. *)
Theorem calculate_adjacent_mines_spec (g : list Hex) :
  length (calculate_adjacent_mines g) = length g /\
  (forall i h, g !! i = Some h ->
     exists h', calculate_adjacent_mines g !! i = Some h' /\
       q h' = q h /\ r h' = r h /\ color h' = color h /\
       is_mine h' = is_mine h /\ revealed h' = revealed h) /\
  (forall h', h' ∈ calculate_adjacent_mines g -> is_mine h' = false ->
     0 <= adjacent_mines h' <= 6 /\
     adjacent_mines h'
     = Z.of_nat (length (filter
         (fun d => mine_dir (calculate_adjacent_mines g) h' d = true)
         directions)) /\
     (forall d,
        (forall n, n ∈ calculate_adjacent_mines g ->
                   coords n <> (q h' + d.1, r h' + d.2)) ->
        mine_dir (calculate_adjacent_mines g) h' d = false)) /\
  (NoDup (coords <$> g) ->
   forall h', h' ∈ calculate_adjacent_mines g -> is_mine h' = false ->
     adjacent_mines h'
     = Z.of_nat (length (mine_neighbours (calculate_adjacent_mines g) h'))).
Proof.
  rewrite calculate_adjacent_mines_settle.
  assert (skeleton <$> (settle g <$> g) = skeleton <$> g) as Hsk.
  { rewrite <- list_fmap_compose. apply list_fmap_ext.
    intros; simpl; apply skeleton_settle. }
  assert (forall h, is_mine (settle g h) = false ->
            adjacent_mines (settle g h)
            = count_adjacent (settle g <$> g) (settle g h)) as Hadj.
  { intros h Hm.
    assert (is_mine h = false) as Hmh.
    { rewrite <- Hm. unfold settle. by destruct (is_mine h) eqn:E. }
    transitivity (count_adjacent g h); [unfold settle; by rewrite Hmh|].
    apply count_adjacent_skeleton; [done|].
    unfold settle. by rewrite Hmh. }
  split; [by rewrite length_fmap|]. split; [|split].
  - intros i h Hi. exists (settle g h). rewrite list_lookup_fmap, Hi.
    split; [done|]. unfold settle. by destruct (is_mine h) eqn:E.
  - intros h' (h & -> & Hh)%list_elem_of_fmap Hm. rewrite (Hadj h Hm).
    split; [apply count_adjacent_bounds|]. split; [apply count_adjacent_dirs|].
    intros d Habsent. unfold mine_dir.
    destruct (find_hex _ _ _) as [[k n]|] eqn:Hf; [|done].
    apply find_hex_Some in Hf as [Hk Hc]. exfalso.
    apply (Habsent n); [by eapply list_elem_of_lookup_2|done].
  - intros Hnd h' (h & -> & Hh)%list_elem_of_fmap Hm. rewrite (Hadj h Hm).
    rewrite count_adjacent_dirs. f_equal. apply count_dirs_cells.
    replace (coords <$> (settle g <$> g)) with (coords <$> g); [done|].
    rewrite <- list_fmap_compose. apply list_fmap_ext.
    intros j x _. simpl. unfold settle. by destruct (is_mine x).
Qed.

Lemma calculate_adjacent_mines_spec_witness :
  NoDup (coords <$> sample_board) /\
  (forall h', h' ∈ calculate_adjacent_mines sample_board -> is_mine h' = false ->
     adjacent_mines h'
     = Z.of_nat (length (mine_neighbours (calculate_adjacent_mines sample_board) h'))).
Proof.
  assert (NoDup (coords <$> sample_board)) as Hnd
    by (apply (bool_decide_unpack _); vm_compute; exact I).
  split; [exact Hnd|].
  exact (proj2 (proj2 (proj2 (calculate_adjacent_mines_spec sample_board))) Hnd).
Defined.

(** The centre of the radius-5 board with mines on all six neighbours. *)
Example center_six_mines :
  adjacent_mines <$>
    calculate_adjacent_mines
      (with_mines directions (create_hex_grid 5)) !! 45%nat = Some 6
  /\ coords <$> create_hex_grid 5 !! 45%nat = Some (0, 0).
Proof. split; vm_compute; reflexivity. Qed.

(** The adjacency counts of the sample board, cell by cell. *)
Example sample_board_counts :
  (fun h => (coords h, is_mine h, adjacent_mines h)) <$>
    calculate_adjacent_mines sample_board
  = [((-1, 0), false, 1); ((-1, 1), false, 0); ((0, -1), true, 0);
     ((0, 0), false, 2); ((0, 1), false, 1); ((1, -1), false, 2);
     ((1, 0), true, 0)].
Proof. vm_compute. reflexivity. Qed.

(** ** Reveal *)

Lemma reveal_hex_S (depth : nat) (sounds : Sounds) (i : nat) (w : World) :
  reveal_hex (S depth) sounds i w =
  match grid w !! i with
  | None => Some w
  | Some hexagon =>
      if revealed hexagon then Some w
      else
        let w1 := play sounds snd_reveal (mark_revealed i hexagon w) in
        if (adjacent_mines hexagon =? 0) && negb (is_mine hexagon)
        then foldl (visit (reveal_hex depth sounds) hexagon) (Some w1) directions
        else Some w1
  end.
Proof. reflexivity. Qed.

Lemma foldl_visit_None rec hexagon (ds : list (Z * Z)) :
  foldl (visit rec hexagon) None ds = None.
Proof. by induction ds. Qed.

Lemma zero_cell_test (h : Hex) :
  (adjacent_mines h =? 0) && negb (is_mine h) = true <-> zero_cell h.
Proof.
  unfold zero_cell. rewrite andb_true_iff, Z.eqb_eq, negb_true_iff. done.
Qed.

Lemma count_hidden_insert (g : list Hex) (i : nat) (h : Hex) :
  g !! i = Some h -> revealed h = false ->
  S (count_hidden (<[i := set_revealed true h]> g)) = count_hidden g.
Proof.
  unfold count_hidden. revert i. induction g as [|x g IH]; intros i Hi Hr; [done|].
  destruct i as [|i]; simpl in *.
  - injection Hi as ->. rewrite !filter_cons. simpl.
    destruct (decide (revealed h = false)); [|congruence].
    destruct (decide (true = false)); [congruence|done].
  - rewrite !filter_cons. specialize (IH i Hi Hr).
    destruct (decide (revealed x = false)); simpl; by rewrite <- IH.
Qed.

(** Marking cells does not bring hidden cells back. *)
Lemma count_hidden_marks (g g' : list Hex) :
  (forall j, exists b : bool,
     g' !! j = (fun h => if b then set_revealed true h else h) <$> g !! j) ->
  (count_hidden g' <= count_hidden g)%nat.
Proof.
  unfold count_hidden. revert g'. induction g as [|x g IH]; intros g' Hcells.
  - destruct g' as [|y g']; [done|]. by destruct (Hcells 0%nat) as [b Hb].
  - destruct g' as [|y g'].
    { by destruct (Hcells 0%nat) as [b Hb]. }
    specialize (IH g' (fun j => Hcells (S j))).
    destruct (Hcells 0%nat) as [b Hb]. simpl in Hb. injection Hb as ->.
    rewrite !filter_cons.
    destruct b; simpl;
      repeat (destruct (decide _); simpl); try congruence; lia.
Qed.

Lemma static_skeleton (g g' : list Hex) :
  static <$> g = static <$> g' -> skeleton <$> g = skeleton <$> g'.
Proof.
  intros Hs.
  apply (f_equal (fmap (fun s : Z * Z * bool * Z => (s.1.1.1, s.1.1.2, s.1.2)))) in Hs.
  by rewrite <- !list_fmap_compose in Hs.
Qed.

Lemma static_lookup (g g' : list Hex) (j : nat) (h : Hex) :
  static <$> g = static <$> g' -> g !! j = Some h ->
  exists h', g' !! j = Some h' /\ static h' = static h.
Proof.
  intros Hs Hj.
  apply (f_equal (fun l => l !! j)) in Hs.
  rewrite !list_lookup_fmap, Hj in Hs. simpl in Hs.
  destruct (g' !! j) as [h'|]; [|done]. exists h'. split; [done|].
  simpl in Hs. congruence.
Qed.

Lemma find_hex_static (g g' : list Hex) (nq nr : Z) (k : nat) (n : Hex) :
  static <$> g = static <$> g' -> find_hex g nq nr = Some (k, n) ->
  exists n', find_hex g' nq nr = Some (k, n').
Proof.
  intros Hs%static_skeleton Hf.
  pose proof (find_hex_skeleton g g' nq nr Hs) as He. rewrite Hf in He.
  destruct (find_hex g' nq nr) as [[k' n']|]; [|done].
  simpl in He. exists n'. congruence.
Qed.

Lemma find_hex_static_None (g g' : list Hex) (nq nr : Z) :
  static <$> g = static <$> g' -> find_hex g nq nr = None ->
  find_hex g' nq nr = None.
Proof.
  intros Hs%static_skeleton Hf.
  pose proof (find_hex_skeleton g g' nq nr Hs) as He. rewrite Hf in He.
  by destruct (find_hex g' nq nr) as [[k' n']|].
Qed.

Lemma edge_static (g g' : list Hex) (j k : nat) :
  static <$> g = static <$> g' -> edge g j k -> edge g' j k.
Proof.
  intros Hs (h & d & n & Hj & [Ha Hm] & Hd & Hf).
  destruct (static_lookup g g' j h Hs Hj) as (h' & Hj' & Hst).
  destruct (find_hex_static g g' _ _ k n Hs Hf) as [n' Hf'].
  unfold static in Hst. injection Hst as Hq Hr Hmi Had.
  exists h', d, n'. unfold zero_cell. rewrite Hq, Hr, Hmi, Had. done.
Qed.

Lemma rtc_edge_static (g g' : list Hex) (j k : nat) :
  static <$> g = static <$> g' -> rtc (edge g) j k -> rtc (edge g') j k.
Proof.
  intros Hs. induction 1 as [|x y z Hxy _ IH]; [constructor|].
  econstructor; [by eapply edge_static|done].
Qed.

(** *** The relation [extends] *)

Section Extends.
Variable sounds : Sounds.

Lemma sound_log_app (n2 n1 : list nat) :
  sound_log sounds (n2 ++ n1) = sound_log sounds n2 ++ sound_log sounds n1.
Proof. unfold sound_log. destruct (sounds snd_reveal); [apply fmap_app|done]. Qed.

Lemma mark_in_nil (j : nat) (h : Hex) : mark_in [] j h = h.
Proof. unfold mark_in. rewrite bool_decide_eq_false_2; [done|apply not_elem_of_nil]. Qed.

Lemma extends_refl (w : World) : extends sounds w w [].
Proof.
  split; try done.
  - unfold sound_log. by destruct (sounds snd_reveal).
  - intros j. destruct (grid w !! j); simpl; [|done]. by rewrite mark_in_nil.
  - intros j Hj. by apply not_elem_of_nil in Hj.
  - constructor.
Qed.

Lemma extends_static (w w' : World) (new : list nat) :
  extends sounds w w' new -> static <$> grid w = static <$> grid w'.
Proof.
  intros He. apply list_eq. intros j.
  rewrite !list_lookup_fmap, (ext_cells _ _ _ _ He).
  destruct (grid w !! j) as [h|]; simpl; [|done].
  unfold mark_in. by destruct (bool_decide _).
Qed.

Lemma extends_length (w w' : World) (new : list nat) :
  extends sounds w w' new -> length (grid w') = length (grid w).
Proof.
  intros He%extends_static. apply (f_equal length) in He.
  by rewrite !length_fmap in He.
Qed.

Lemma extends_revealed_at (w w' : World) (new : list nat) (j : nat) :
  extends sounds w w' new ->
  revealed_at (grid w') j <-> revealed_at (grid w) j \/ j ∈ new.
Proof.
  intros He. unfold revealed_at. rewrite (ext_cells _ _ _ _ He). split.
  - intros (h' & Hj & Hr). destruct (grid w !! j) as [h|] eqn:E; [|done].
    simpl in Hj. injection Hj as <-. unfold mark_in in Hr.
    destruct (bool_decide_reflect (j ∈ new)); [by right|]. left. eauto.
  - intros [(h & Hj & Hr)|Hj].
    + rewrite Hj. simpl. eexists. split; [done|].
      unfold mark_in. by destruct (bool_decide _).
    + destruct (ext_hidden _ _ _ _ He j Hj) as (h & Hh & _).
      rewrite Hh. simpl. eexists. split; [done|].
      unfold mark_in. by rewrite bool_decide_eq_true_2.
Qed.

Lemma extends_hidden_at (w w' : World) (new : list nat) (j : nat) :
  extends sounds w w' new ->
  hidden_at (grid w') j -> hidden_at (grid w) j /\ j ∉ new.
Proof.
  intros He (h' & Hj & Hr). rewrite (ext_cells _ _ _ _ He) in Hj.
  destruct (grid w !! j) as [h|] eqn:E; [|done].
  simpl in Hj. injection Hj as <-. unfold mark_in in Hr.
  destruct (bool_decide_reflect (j ∈ new)); [done|].
  split; [|done]. exists h. done.
Qed.

Lemma extends_count_hidden (w w' : World) (new : list nat) :
  extends sounds w w' new ->
  (count_hidden (grid w') <= count_hidden (grid w))%nat.
Proof.
  intros He. apply count_hidden_marks. intros j.
  exists (bool_decide (j ∈ new)). apply (ext_cells _ _ _ _ He).
Qed.

Lemma extends_trans (w w1 w2 : World) (n1 n2 : list nat) :
  extends sounds w w1 n1 -> extends sounds w1 w2 n2 ->
  extends sounds w w2 (n2 ++ n1).
Proof.
  intros H1 H2.
  assert (forall j, j ∈ n2 -> j ∉ n1) as Hdisj.
  { intros j Hj. by eapply extends_hidden_at, (ext_hidden _ _ _ _ H2). }
  split.
  - rewrite (ext_marked _ _ _ _ H2), (ext_marked _ _ _ _ H1). by rewrite app_assoc.
  - rewrite (ext_played _ _ _ _ H2), (ext_played _ _ _ _ H1), sound_log_app.
    by rewrite app_assoc.
  - intros j. rewrite (ext_cells _ _ _ _ H2), (ext_cells _ _ _ _ H1).
    destruct (grid w !! j) as [h|]; simpl; [|done]. f_equal.
    unfold mark_in.
    destruct (bool_decide_reflect (j ∈ n2)) as [Hin2|Hout2].
    + rewrite (bool_decide_eq_false_2 (j ∈ n1)) by auto.
      rewrite bool_decide_eq_true_2; [done|]. apply elem_of_app. auto.
    + destruct (bool_decide_reflect (j ∈ n1)) as [Hin1|Hout1].
      * rewrite bool_decide_eq_true_2; [done|]. apply elem_of_app. auto.
      * rewrite bool_decide_eq_false_2; [done|]. rewrite elem_of_app. tauto.
  - intros j [Hj|Hj]%elem_of_app.
    + by eapply extends_hidden_at, (ext_hidden _ _ _ _ H2).
    + by apply (ext_hidden _ _ _ _ H1).
  - apply NoDup_app. split_and!;
      [apply (ext_nodup _ _ _ _ H2)|done|apply (ext_nodup _ _ _ _ H1)].
Qed.

(** Lines 120-122: the assignment and the sound. *)
Lemma extends_mark (w : World) (i : nat) (h : Hex) :
  grid w !! i = Some h -> revealed h = false ->
  extends sounds w (play sounds snd_reveal (mark_revealed i h w)) [i].
Proof.
  intros Hi Hr.
  assert (grid (play sounds snd_reveal (mark_revealed i h w))
          = <[i := set_revealed true h]> (grid w)) as Hg.
  { unfold play. by destruct (sounds snd_reveal). }
  split.
  - unfold play. by destruct (sounds snd_reveal).
  - unfold play, sound_log. by destruct (sounds snd_reveal).
  - intros j. rewrite Hg. destruct (decide (j = i)) as [->|Hne].
    + rewrite list_lookup_insert_eq by (by eapply lookup_lt_Some).
      rewrite Hi. simpl. unfold mark_in.
      rewrite bool_decide_eq_true_2; [done|]. apply list_elem_of_here.
    + rewrite list_lookup_insert_ne by done.
      destruct (grid w !! j); simpl; [|done]. unfold mark_in.
      rewrite bool_decide_eq_false_2; [done|].
      rewrite list_elem_of_singleton. done.
  - intros j ->%list_elem_of_singleton. by exists h.
  - apply NoDup_singleton.
Qed.
End Extends.

(** *** The recursion *)

Section Reveal.
Variable sounds : Sounds.

(** The loop over the directions, for a hidden zero cell [h] at position
    [i] of [w0], from a state [wk] reached after some of the
    directions. *)
Lemma reveal_loop (d : nat) (w0 : World) (i : nat) (h : Hex) :
  (forall j w, reveal_result sounds d j w) ->
  grid w0 !! i = Some h -> zero_cell h ->
  forall (ds : list (Z * Z)) (wk : World) (newk : list nat),
    (forall dd, dd ∈ ds -> dd ∈ directions) ->
    extends sounds w0 wk newk ->
    (forall k, k ∈ newk -> rtc (edge (grid w0)) i k) ->
    (forall j k, j ∈ newk -> j <> i -> edge (grid w0) j k ->
                 revealed_at (grid wk) k) ->
    match foldl (visit (reveal_hex d sounds) h) (Some wk) ds with
    | Some w' =>
        exists new',
          extends sounds w0 w' (new' ++ newk) /\
          (forall k, k ∈ new' ++ newk -> rtc (edge (grid w0)) i k) /\
          (forall j k, j ∈ new' ++ newk -> j <> i -> edge (grid w0) j k ->
                       revealed_at (grid w') k) /\
          (forall dd k n, dd ∈ ds ->
             find_hex (grid w0) (q h + dd.1) (r h + dd.2) = Some (k, n) ->
             revealed_at (grid w') k) /\
          (forall k, revealed_at (grid wk) k -> revealed_at (grid w') k)
    | None => (d <= count_hidden (grid wk))%nat
    end.
Proof.
  intros Hrec Hi Hz ds. induction ds as [|dd ds IH];
    intros wk newk Hds Hext Hreach Hclosed.
  - simpl. exists []. split_and!; try done.
    intros dd k n Hdd. by apply not_elem_of_nil in Hdd.
  - assert (static <$> grid w0 = static <$> grid wk) as Hst
      by (by eapply extends_static).
    assert (forall dd', dd' ∈ ds -> dd' ∈ directions) as Hds'
      by (intros; apply Hds; by apply list_elem_of_further).
    simpl.
    destruct (find_hex (grid wk) (q h + dd.1) (r h + dd.2)) as [[j n']|] eqn:Hf.
    + (* a neighbour at position j: the recursive call *)
      pose proof (Hrec j wk) as Hcall. unfold reveal_result in Hcall.
      destruct (reveal_hex d sounds j wk) as [wn|] eqn:Hcalled.
      * destruct Hcall as [newj Hpost].
        assert (extends sounds wk wn newj) as Hstep by apply Hpost.
        assert (edge (grid w0) i j) as Hij.
        { destruct (find_hex_static (grid wk) (grid w0) _ _ j n'
                      (eq_sym Hst) Hf) as [n0 Hf0].
          exists h, dd, n0. split_and!; try done.
          apply Hds, list_elem_of_here. }
        specialize (IH wn (newj ++ newk) Hds'
                      (extends_trans _ _ _ _ _ _ Hext Hstep)).
        destruct (foldl _ (Some wn) ds) as [w'|] eqn:Hloop.
        -- destruct IH as (new' & He & Hr & Hc & Hd & Hm).
           ++ intros k [Hk|Hk]%elem_of_app; [|by apply Hreach].
              eapply rtc_l; [exact Hij|].
              eapply rtc_edge_static; [exact (eq_sym Hst)|].
              by apply (post_reach _ _ _ _ _ Hpost).
           ++ intros j' k [Hj'|Hj']%elem_of_app Hne Hedge.
              ** apply (post_closed _ _ _ _ _ Hpost j' k Hj').
                 by eapply edge_static.
              ** apply (extends_revealed_at _ _ _ _ k Hstep). left.
                 by apply (Hclosed j' k).
           ++ exists (new' ++ newj). rewrite <- !app_assoc.
              split_and!; try done.
              ** intros dd' k n [->|Hdd']%elem_of_cons Hf0; [|by eapply Hd].
                 destruct (find_hex_static (grid w0) (grid wk) _ _ k n Hst Hf0)
                   as [n1 Hf1].
                 assert (k = j) as -> by congruence.
                 apply Hm. apply find_hex_Some in Hf as [Hj _].
                 by apply (post_target _ _ _ _ _ Hpost n').
              ** intros k Hk. apply Hm.
                 apply (extends_revealed_at _ _ _ _ k Hstep). by left.
        -- etrans; [apply IH|].
           ++ intros k [Hk|Hk]%elem_of_app; [|by apply Hreach].
              eapply rtc_l; [exact Hij|].
              eapply rtc_edge_static; [exact (eq_sym Hst)|].
              by apply (post_reach _ _ _ _ _ Hpost).
           ++ intros j' k [Hj'|Hj']%elem_of_app Hne Hedge.
              ** apply (post_closed _ _ _ _ _ Hpost j' k Hj').
                 by eapply edge_static.
              ** apply (extends_revealed_at _ _ _ _ k Hstep). left.
                 by apply (Hclosed j' k).
           ++ by eapply extends_count_hidden.
      * by rewrite foldl_visit_None.
    + (* no cell in this direction *)
      specialize (IH wk newk Hds' Hext Hreach Hclosed).
      destruct (foldl _ (Some wk) ds) as [w'|]; [|done].
      destruct IH as (new' & He & Hr & Hc & Hd & Hm).
      exists new'. split_and!; try done.
      intros dd' k n [->|Hdd']%elem_of_cons Hf0; [|by eapply Hd].
      by rewrite (find_hex_static_None (grid wk) (grid w0) _ _ (eq_sym Hst) Hf) in Hf0.
Qed.
End Reveal.

(** Every call either returns a state as described by [reveal_post], or
    gives up at a depth not larger than the number of hidden cells. *)
Lemma reveal_hex_result (sounds : Sounds) (depth : nat) (i : nat) (w : World) :
  reveal_result sounds depth i w.
Proof.
  revert i w. induction depth as [|d IH]; intros i w; unfold reveal_result.
  { simpl. lia. }
  rewrite reveal_hex_S.
  destruct (grid w !! i) as [h|] eqn:Hi.
  2: { exists []. split; [apply extends_refl|congruence|..].
       - intros k Hk. by apply not_elem_of_nil in Hk.
       - intros j k Hj. by apply not_elem_of_nil in Hj. }
  destruct (revealed h) eqn:Hr.
  { exists []. split; [apply extends_refl| |..].
    - intros h' _. by exists h.
    - intros k Hk. by apply not_elem_of_nil in Hk.
    - intros j k Hj. by apply not_elem_of_nil in Hj. }
  cbv zeta.
  pose proof (extends_mark sounds w i h Hi Hr) as Hmark.
  set (w1 := play sounds snd_reveal (mark_revealed i h w)) in *.
  destruct ((adjacent_mines h =? 0) && negb (is_mine h)) eqn:Hz.
  - apply zero_cell_test in Hz.
    pose proof (reveal_loop sounds d w i h IH Hi Hz directions w1 [i]
                  (fun _ H => H) Hmark) as Hloop.
    destruct (foldl _ (Some w1) directions) as [w'|].
    + destruct Hloop as (new' & He & Hreach & Hclosed & Hdirs & Hmono).
      * intros k Hk%list_elem_of_singleton. rewrite Hk. constructor.
      * intros j k Hj%list_elem_of_singleton Hne. done.
      * exists (new' ++ [i]). split; [done| |done|].
        -- intros h' _. apply (extends_revealed_at _ _ _ _ i He). right.
           apply elem_of_app. right. apply list_elem_of_here.
        -- intros j k Hj Hedge. destruct (decide (j = i)) as [->|Hne].
           ++ destruct Hedge as (h' & dd & n & Hi' & _ & Hdd & Hf).
              assert (h' = h) as -> by congruence.
              by eapply Hdirs.
           ++ by eapply Hclosed.
    + assert (S (count_hidden (grid w1)) = count_hidden (grid w)) as Hcount.
      { rewrite <- (count_hidden_insert (grid w) i h Hi Hr). f_equal.
        unfold w1, play. by destruct (sounds snd_reveal). }
      assert (d <= count_hidden (grid w1))%nat; [|lia].
      apply Hloop.
      * intros k Hk%list_elem_of_singleton. rewrite Hk. constructor.
      * intros j k Hj%list_elem_of_singleton Hne. done.
  - exists [i]. split; [done| | |].
    + intros h' _. apply (extends_revealed_at _ _ _ _ i Hmark). right.
      apply list_elem_of_here.
    + intros k Hk%list_elem_of_singleton. rewrite Hk. constructor.
    + intros j k Hj%list_elem_of_singleton (h' & dd & n & Hi' & Hz' & _).
      rewrite Hj in Hi'.
      assert (h' = h) as -> by congruence.
      apply zero_cell_test in Hz'. congruence.
Qed.

(** With a depth larger than the number of hidden cells the call returns. *)
Lemma reveal_hex_returns (sounds : Sounds) (depth : nat) (i : nat) (w : World) :
  (count_hidden (grid w) < depth)%nat ->
  exists w' new, reveal_hex depth sounds i w = Some w' /\
                 reveal_post sounds i w w' new.
Proof.
  intros Hd. pose proof (reveal_hex_result sounds depth i w) as Hres.
  unfold reveal_result in Hres.
  destruct (reveal_hex depth sounds i w) as [w'|]; [|lia].
  destruct Hres as [new Hpost]. eauto.
Qed.

Lemma reveal_hex_post (sounds : Sounds) (depth : nat) (i : nat) (w w' : World) :
  reveal_hex depth sounds i w = Some w' ->
  exists new, reveal_post sounds i w w' new.
Proof.
  intros Hcall. pose proof (reveal_hex_result sounds depth i w) as Hres.
  unfold reveal_result in Hres. by rewrite Hcall in Hres.
Qed.

(** C8: on every board and for every cell, [reveal_hex] returns as soon as
    the call depth allowed exceeds the number of cells still hidden (so
    [len(hex_grid) + 1] nested calls always suffice); during the call the
    [revealed] attribute is assigned at most once per cell, only on cells
    that were hidden, and a cell already revealed is left as it is. *)
Theorem reveal_hex_terminates (sounds : Sounds) (depth i : nat) (w : World) :
  (count_hidden (grid w) < depth)%nat ->
  exists w' new,
    reveal_hex depth sounds i w = Some w' /\
    marked w' = new ++ marked w /\
    NoDup new /\
    (forall j, j ∈ new -> hidden_at (grid w) j /\ revealed_at (grid w') j) /\
    (forall j h, grid w !! j = Some h -> revealed h = true ->
                 grid w' !! j = Some h).
Proof.
  intros Hd. destruct (reveal_hex_returns sounds depth i w Hd) as (w' & new & Hcall & Hpost).
  exists w', new. pose proof (post_extends _ _ _ _ _ Hpost) as Hext.
  split_and!; [done|apply Hext|apply Hext| |].
  - intros j Hj. split; [by apply (ext_hidden _ _ _ _ Hext)|].
    apply (extends_revealed_at _ _ _ _ j Hext). by right.
  - intros j h Hj Hr. rewrite (ext_cells _ _ _ _ Hext), Hj. simpl.
    unfold mark_in. destruct (bool_decide_reflect (j ∈ new)) as [Hin|]; [|done].
    destruct (ext_hidden _ _ _ _ Hext j Hin) as (h0 & Hj0 & Hr0). congruence.
Qed.

Lemma reveal_hex_terminates_witness :
  (count_hidden (grid (fresh_world (create_hex_grid 1))) < 8)%nat /\
  exists w' new,
    reveal_hex 8 all_sounds 3 (fresh_world (create_hex_grid 1)) = Some w' /\
    marked w' = new ++ marked (fresh_world (create_hex_grid 1)) /\
    NoDup new.
Proof.
  assert (count_hidden (grid (fresh_world (create_hex_grid 1))) < 8)%nat as Hd
    by (vm_compute; lia).
  split; [exact Hd|].
  destruct (reveal_hex_terminates all_sounds 8 3
              (fresh_world (create_hex_grid 1)) Hd)
    as (w' & new & Hcall & Hmarked & Hnodup & _).
  exists w', new. split_and!; assumption.
Defined.

(** The radius-1 board without mines: revealing the centre marks all seven
    cells, each once, and plays seven sounds. *)
Example reveal_radius_1 :
  exists w',
    reveal_hex 8 all_sounds 3 (fresh_world (create_hex_grid 1)) = Some w' /\
    marked w' = [5; 2; 0; 1; 4; 6; 3]%nat /\
    revealed <$> grid w' = replicate 7 true /\
    played w' = replicate 7 snd_reveal.
Proof. eexists. split; [vm_compute; reflexivity|]. by vm_compute. Qed.

(** C7: [reveal_hex] on a cell that is already revealed returns the state
    it was given: no cell changes and nothing is added to the sound log or
    to the log of assignments.  Revealing a cell a second time therefore
    gives the state reached by revealing it once. *)
Theorem reveal_hex_revealed_noop (sounds : Sounds) (i : nat) (w : World) :
  (forall depth h,
     grid w !! i = Some h -> revealed h = true ->
     reveal_hex (S depth) sounds i w = Some w) /\
  (forall depth depth' w',
     reveal_hex depth sounds i w = Some w' ->
     reveal_hex (S depth') sounds i w' = Some w').
Proof.
  split.
  - intros depth h Hi Hr. by rewrite reveal_hex_S, Hi, Hr.
  - intros depth depth' w' Hcall.
    destruct (reveal_hex_post sounds depth i w w' Hcall) as [new Hpost].
    rewrite reveal_hex_S.
    destruct (grid w' !! i) as [h'|] eqn:Hi'; [|done].
    pose proof (ext_cells _ _ _ _ (post_extends _ _ _ _ _ Hpost) i) as Hc.
    rewrite Hi' in Hc. destruct (grid w !! i) as [h|] eqn:Hi; [|done].
    destruct (post_target _ _ _ _ _ Hpost h Hi) as (h'' & Hi'' & Hr).
    assert (h'' = h') as -> by congruence. by rewrite Hr.
Qed.

Lemma reveal_hex_revealed_noop_witness :
  (grid (world two_cells) !! 1%nat = Some (Hex_init 1 0) /\
   exists w',
     reveal_hex 3 all_sounds 1 (world two_cells) = Some w' /\
     grid w' !! 1%nat = Some (set_revealed true (Hex_init 1 0)) /\
     revealed (set_revealed true (Hex_init 1 0)) = true /\
     reveal_hex 1 all_sounds 1 w' = Some w') /\
  exists w',
    reveal_hex 3 all_sounds 0 (world two_cells) = Some w' /\
    reveal_hex 3 all_sounds 0 w' = Some w'.
Proof.
  split.
  - split; [reflexivity|].
    exists {| grid := [set_revealed true (Hex_init 0 0);
                       set_revealed true (Hex_init 1 0)];
              played := [snd_reveal; snd_reveal];
              marked := [0; 1]%nat |}.
    split; [vm_compute; reflexivity|].
    split; [reflexivity|]. split; [reflexivity|].
    apply (proj1 (reveal_hex_revealed_noop all_sounds 1 _) 0%nat
             (set_revealed true (Hex_init 1 0))); reflexivity.
  - eexists. split; [vm_compute; reflexivity|].
    refine (proj2 (reveal_hex_revealed_noop all_sounds 0 (world two_cells))
              3%nat 2%nat _ _).
    vm_compute. reflexivity.
Defined.

(** *** The flood fill and the zero region *)

Lemma adj_shift (x y : Z) (d : Z * Z) : d ∈ directions -> adj (x, y) (x + d.1, y + d.2).
Proof.
  intros Hd. unfold adj. simpl.
  replace (x + d.1 - x, y + d.2 - y) with d; [done|].
  destruct d; simpl; f_equal; lia.
Qed.

(** An edge followed by the code joins a zero cell to a neighbour. *)
Lemma edge_adj (g : list Hex) (j k : nat) :
  edge g j k ->
  exists a b, g !! j = Some a /\ g !! k = Some b /\ zero_cell a /\
              adj (coords a) (coords b).
Proof.
  intros (h & d & n & Hj & Hz & Hd & Hf).
  apply find_hex_Some in Hf as [Hk Hc].
  exists h, n. split_and!; try done. rewrite Hc. by apply adj_shift.
Qed.

(** With distinct coordinates, every neighbour of a zero cell is reached by
    an edge. *)
Lemma adj_edge (g : list Hex) (j k : nat) (a b : Hex) :
  NoDup (coords <$> g) ->
  g !! j = Some a -> g !! k = Some b -> zero_cell a ->
  adj (coords a) (coords b) -> edge g j k.
Proof.
  intros Hnd Hj Hk Hz Ha.
  exists a, (q b - q a, r b - r a), b. split_and!; try done. simpl.
  replace (q a + (q b - q a)) with (q b) by lia.
  replace (r a + (r b - r a)) with (r b) by lia.
  by apply find_hex_lookup.
Qed.

(** The cells reached along edges from [i] lie in the flood set of the cell
    at [i]. *)
Lemma reach_flood_set (g : list Hex) (i k : nat) (c : Hex) :
  g !! i = Some c -> zero_cell c -> rtc (edge g) i k ->
  exists b, g !! k = Some b /\
            flood_set g (coords c) (coords b) /\
            (zero_cell b -> zero_region g (coords c) (coords b)).
Proof.
  intros Hi Hz Hreach.
  assert (zero_region g (coords c) (coords c)) as Hstart.
  { constructor. exists c. split_and!; try done. by eapply list_elem_of_lookup_2. }
  revert k Hreach. apply rtc_ind_r.
  2: intros j k Hj Hedge IH.
  - exists c. split; [done|]. split; [|done]. exists (coords c). auto.
  - destruct IH as (a & Ha & _ & Hregion).
    apply edge_adj in Hedge as (a' & b & Ha' & Hb & Hza & Hadj).
    assert (a' = a) as -> by congruence.
    exists b. split; [done|]. split.
    + exists (coords a). auto.
    + intros Hzb. eapply zr_step; [by apply Hregion|done|].
      exists b. split_and!; try done. by eapply list_elem_of_lookup_2.
Qed.

(** After the call, every cell of the zero region is revealed together with
    all its neighbours in the board. *)
Lemma zero_region_revealed (sounds : Sounds) (i : nat) (w w' : World)
    (new : list nat) (c : Hex) (a : Z * Z) :
  reveal_post sounds i w w' new ->
  NoDup (coords <$> grid w) -> flood_closed (grid w) ->
  grid w !! i = Some c -> revealed c = false ->
  zero_region (grid w) (coords c) a ->
  forall k n, grid w !! k = Some n -> coords n = a \/ adj a (coords n) ->
              revealed_at (grid w') k.
Proof.
  intros Hpost Hnd Hclosed Hi Hr Hregion.
  pose proof (post_extends _ _ _ _ _ Hpost) as Hext.
  (* a revealed zero cell has its neighbours revealed *)
  assert (forall j h k n, grid w !! j = Some h -> zero_cell h ->
            revealed_at (grid w') j -> grid w !! k = Some n ->
            adj (coords h) (coords n) -> revealed_at (grid w') k) as Hnext.
  { intros j h k n Hj Hz Hrev Hk Hadj.
    apply (extends_revealed_at _ _ _ _ j Hext) in Hrev as [(h0 & Hj0 & Hr0)|Hnew].
    - assert (h0 = h) as -> by congruence.
      apply (extends_revealed_at _ _ _ _ k Hext). left. exists n. split; [done|].
      apply (Hclosed h n); try done; by eapply list_elem_of_lookup_2.
    - apply (post_closed _ _ _ _ _ Hpost j k Hnew). by eapply adj_edge. }
  induction Hregion as [Hzc|a b Hab IH Hadj Hzb].
  - intros k n Hk [Hc|Hadj].
    + assert (k = i) as -> by (by eapply NoDup_coords_index).
      by apply (post_target _ _ _ _ _ Hpost c).
    + destruct Hzc as (c' & Hc' & Hcc & Hz).
      assert (c' = c) as ->.
      { eapply NoDup_coords_inj; try done. by eapply list_elem_of_lookup_2. }
      eapply (Hnext i c k n); try done.
      by apply (post_target _ _ _ _ _ Hpost c).
  - intros k n Hk [Hc|Hadj'].
    + apply (IH k n Hk). right. by rewrite Hc.
    + destruct Hzb as (hb & [kb Hkb]%list_elem_of_lookup & Hcb & Hz).
      eapply (Hnext kb hb k n); try done; [|by rewrite Hcb].
      apply (IH kb hb Hkb). right. by rewrite Hcb.
Qed.

Lemma flood_closed_fresh (g : list Hex) :
  Forall (fun h => revealed h = false) g -> flood_closed g.
Proof.
  intros Hfresh h n Hh _ Hr. rewrite Forall_forall in Hfresh.
  specialize (Hfresh h Hh). congruence.
Qed.

(** [reveal_hex] keeps the board flood closed. *)
Lemma reveal_hex_flood_closed (sounds : Sounds) (depth i : nat) (w w' : World) :
  NoDup (coords <$> grid w) -> flood_closed (grid w) ->
  reveal_hex depth sounds i w = Some w' -> flood_closed (grid w').
Proof.
  intros Hnd Hclosed Hcall.
  destruct (reveal_hex_post sounds depth i w w' Hcall) as [new Hpost].
  pose proof (post_extends _ _ _ _ _ Hpost) as Hext.
  intros h' n' [j Hj']%list_elem_of_lookup [k Hk']%list_elem_of_lookup Hr Hz Hadj.
  pose proof (ext_cells _ _ _ _ Hext j) as Hcj. rewrite Hj' in Hcj.
  pose proof (ext_cells _ _ _ _ Hext k) as Hck. rewrite Hk' in Hck.
  destruct (grid w !! j) as [h|] eqn:Hj; [|done].
  destruct (grid w !! k) as [n|] eqn:Hk; [|done].
  simpl in Hcj, Hck. injection Hcj as ->. injection Hck as Hn'.
  assert (coords (mark_in new j h) = coords h /\ (zero_cell h)) as [Hch Hzh].
  { unfold mark_in in *. by destruct (bool_decide _). }
  assert (coords n' = coords n) as Hcn.
  { rewrite Hn'. unfold mark_in. by destruct (bool_decide _). }
  rewrite Hch, Hcn in Hadj.
  assert (revealed_at (grid w') k) as (n'' & Hk'' & Hrev); [|congruence].
  assert (revealed_at (grid w') j) as Hrj by (by eexists).
  apply (extends_revealed_at _ _ _ _ j Hext) in Hrj as [(h0 & Hj0 & Hr0)|Hnew].
  - assert (h0 = h) as -> by congruence.
    apply (extends_revealed_at _ _ _ _ k Hext). left. exists n. split; [done|].
    apply (Hclosed h n); try done; by eapply list_elem_of_lookup_2.
  - apply (post_closed _ _ _ _ _ Hpost j k Hnew). by eapply adj_edge.
Qed.

(** C3: on every board met in play ([playable]: pairwise distinct
    coordinates, and every revealed zero cell has its board neighbours
    revealed, as on the board set up at the start of a game and after every
    reveal), [reveal_hex] on a hidden zero cell [c] returns; afterwards every
    cell of the connected zero region of [c] and every board cell bordering
    it is revealed, and no cell outside that set has changed.  The cells
    marked by the call are exactly the cells of the set that were hidden,
    each marked once, and no attribute but [revealed] changes. *)
Theorem reveal_hex_flood (sounds : Sounds) (depth i : nat) (w : World) (c : Hex) :
  playable (grid w) ->
  grid w !! i = Some c -> revealed c = false -> zero_cell c ->
  (count_hidden (grid w) < depth)%nat ->
  exists w' new,
    reveal_hex depth sounds i w = Some w' /\
    marked w' = new ++ marked w /\ NoDup new /\
    (forall j, j ∈ new <->
       exists h, grid w !! j = Some h /\ revealed h = false /\
                 flood_set (grid w) (coords c) (coords h)) /\
    length (grid w') = length (grid w) /\
    (forall j h, grid w !! j = Some h ->
       exists h', grid w' !! j = Some h' /\
         static h' = static h /\ color h' = color h /\
         (revealed h' = true <->
          revealed h = true \/ flood_set (grid w) (coords c) (coords h))) /\
    (forall j h, grid w !! j = Some h ->
       flood_set (grid w) (coords c) (coords h) ->
       exists h', grid w' !! j = Some h' /\ revealed h' = true) /\
    (forall j h, grid w !! j = Some h ->
       ~ flood_set (grid w) (coords c) (coords h) ->
       grid w' !! j = Some h).
Proof.
  intros [Hnd Hclosed] Hi Hr Hz Hd.
  destruct (reveal_hex_returns sounds depth i w Hd) as (w' & new & Hcall & Hpost).
  pose proof (post_extends _ _ _ _ _ Hpost) as Hext.
  assert (forall j h, grid w !! j = Some h ->
            flood_set (grid w) (coords c) (coords h) ->
            revealed_at (grid w') j) as Hall.
  { intros j h Hj (a & Hregion & Hnear).
    by eapply (zero_region_revealed sounds i w w' new c a). }
  assert (forall j h, grid w !! j = Some h -> j ∈ new ->
            flood_set (grid w) (coords c) (coords h)) as Honly.
  { intros j h Hj Hnew.
    destruct (reach_flood_set (grid w) i j c Hi Hz
                (post_reach _ _ _ _ _ Hpost j Hnew)) as (b & Hb & Hflood & _).
    congruence. }
  exists w', new. split; [done|].
  split; [apply Hext|]. split; [apply Hext|]. split; [|split; [|split; [|split]]].
  - intros j. split.
    + intros Hnew. destruct (ext_hidden _ _ _ _ Hext j Hnew) as (h & Hj & Hh).
      exists h. split_and!; try done. by eapply Honly.
    + intros (h & Hj & Hh & Hflood).
      pose proof (Hall j h Hj Hflood) as Hrev.
      apply (extends_revealed_at _ _ _ _ j Hext) in Hrev as [(h0 & Hj0 & Hr0)|Hnew];
        [congruence|done].
  - by eapply extends_length.
  - intros j h Hj. exists (mark_in new j h).
    split; [by rewrite (ext_cells _ _ _ _ Hext), Hj|].
    split; [unfold mark_in; by destruct (bool_decide _)|].
    split; [unfold mark_in; by destruct (bool_decide _)|].
    assert (revealed (mark_in new j h) = true <-> revealed_at (grid w') j) as ->.
    { unfold revealed_at. rewrite (ext_cells _ _ _ _ Hext), Hj. simpl.
      split; [eauto|]. by intros (h' & [= <-] & Hr'). }
    rewrite (extends_revealed_at _ _ _ _ j Hext). split.
    + intros [(h0 & Hj0 & Hr0)|Hnew]; [left; congruence|]. right. by eapply Honly.
    + intros [Hrev|Hflood]; [left; by exists h|].
      apply (extends_revealed_at _ _ _ _ j Hext). by eapply Hall.
  - intros j h Hj Hflood. by apply (Hall j h).
  - intros j h Hj Hout. rewrite (ext_cells _ _ _ _ Hext), Hj. simpl.
    unfold mark_in. rewrite bool_decide_eq_false_2; [done|].
    intros Hnew. apply Hout. by eapply Honly.
Qed.

Lemma reveal_hex_flood_witness :
  playable (grid (fresh_world sample_board)) /\
  grid (fresh_world sample_board) !! 1%nat = Some (Hex_init (-1) 1) /\
  revealed (Hex_init (-1) 1) = false /\ zero_cell (Hex_init (-1) 1) /\
  (count_hidden (grid (fresh_world sample_board)) < 8)%nat /\
  exists w' new,
    reveal_hex 8 (fun _ => false) 1 (fresh_world sample_board) = Some w' /\
    marked w' = new ++ [] /\ NoDup new /\
    (forall j, j ∈ new <->
       exists h, grid (fresh_world sample_board) !! j = Some h /\
                 revealed h = false /\
                 flood_set (grid (fresh_world sample_board))
                   (coords (Hex_init (-1) 1)) (coords h)).
Proof.
  assert (playable (grid (fresh_world sample_board))) as Hplay.
  { split.
    - apply (bool_decide_unpack _). vm_compute. exact I.
    - apply flood_closed_fresh. apply (bool_decide_unpack _). vm_compute. exact I. }
  assert (grid (fresh_world sample_board) !! 1%nat = Some (Hex_init (-1) 1)) as Hc
    by (vm_compute; reflexivity).
  assert (revealed (Hex_init (-1) 1) = false) as Hr by reflexivity.
  assert (zero_cell (Hex_init (-1) 1)) as Hz by (split; reflexivity).
  assert (count_hidden (grid (fresh_world sample_board)) < 8)%nat as Hd
    by (vm_compute; lia).
  split_and!; try assumption.
  destruct (reveal_hex_flood (fun _ => false) 8 1 (fresh_world sample_board)
              (Hex_init (-1) 1) Hplay Hc Hr Hz Hd)
    as (w' & new & Hcall & Hmarked & Hnodup & Hnew & _).
  exists w', new. split_and!; assumption.
Defined.

(** On the sample board, revealing the only zero cell [(-1,1)] reveals it
    and its three neighbours in the board, and nothing else. *)
Example reveal_sample_board :
  exists w', reveal_hex 8 (fun _ => false) 1 (fresh_world sample_board) = Some w' /\
    (fun h => (coords h, revealed h)) <$> grid w'
    = [((-1, 0), true); ((-1, 1), true); ((0, -1), false); ((0, 0), true);
       ((0, 1), true); ((1, -1), false); ((1, 0), false)].
Proof. eexists. split; [vm_compute; reflexivity|]. by vm_compute. Qed.

(** Why [playable] is assumed: [reveal_hex] does not cross a cell that is
    already revealed.  On three zero cells in a row with the middle one
    revealed by hand, a state that play does not reach, revealing the first
    cell stops at the middle one and the third stays hidden. *)
Lemma reveal_hex_stops_at_revealed :
  calculate_adjacent_mines row_board = row_board /\
  NoDup (coords <$> row_board) /\
  row_board !! 0%nat = Some (Hex_init 0 0) /\
  zero_cell (Hex_init 0 0) /\ revealed (Hex_init 0 0) = false /\
  zero_region row_board (0, 0) (2, 0) /\
  exists w',
    reveal_hex 4 all_sounds 0
      {| grid := row_board; played := []; marked := [] |} = Some w' /\
    grid w' !! 2%nat = Some (Hex_init 2 0) /\
    revealed (Hex_init 2 0) = false.
Proof.
  split; [vm_compute; reflexivity|].
  split; [apply (bool_decide_unpack _); vm_compute; exact I|].
  split; [reflexivity|]. split; [by split|]. split; [reflexivity|]. split.
  - assert (forall k x,
              row_board !! k
              = Some (set_revealed (bool_decide (k = 1%nat)) (Hex_init x 0)) ->
              zero_at row_board (x, 0)) as Hzero.
    { intros k x Hk. eexists. split; [by eapply list_elem_of_lookup_2|].
      by destruct (bool_decide _). }
    apply (zr_step row_board (0, 0) (1, 0) (2, 0)).
    + apply (zr_step row_board (0, 0) (0, 0) (1, 0)).
      * constructor. by apply (Hzero 0%nat 0).
      * apply (bool_decide_unpack _). vm_compute. exact I.
      * by apply (Hzero 1%nat 1).
    + apply (bool_decide_unpack _). vm_compute. exact I.
    + by apply (Hzero 2%nat 2).
  - eexists. split; [vm_compute; reflexivity|]. split; reflexivity.
Qed.

(** ** The left click *)

Section Click.
Context {F : Type} `{FloatOps F}.
Variables (depth : nat) (sounds : Sounds).

(** The scan stops at the first cell for which the hit test holds. *)
Lemma click_scan_find (ox oy mx my : Z) (i0 : nat) (rest : list Hex) (s : Session) :
  click_scan depth sounds ox oy mx my i0 rest s =
  match list_find (fun h => hit ox oy mx my h = true) rest with
  | Some (k, hex) => on_hit depth sounds (i0 + k) hex s
  | None => Some s
  end.
Proof.
  revert i0. induction rest as [|hex rest IH]; intros i0; [done|].
  cbn [click_scan list_find]. destruct (hit ox oy mx my hex) eqn:Hh.
  - rewrite decide_True by done. by rewrite Nat.add_0_r.
  - rewrite decide_False by congruence. rewrite IH.
    destruct (list_find _ rest) as [[k hex']|]; simpl; [|done].
    by rewrite Nat.add_succ_r.
Qed.

(** The event handler on a left click whose first hit is [hex] at
    position [i]. *)
Lemma left_click_on_first (mx my : Z) (s : Session) (i : nat) (hex : Hex) :
  grid (world s) !! i = Some hex ->
  hit offset_x offset_y mx my hex = true ->
  (forall j h, (j < i)%nat -> grid (world s) !! j = Some h ->
               hit offset_x offset_y mx my h = false) ->
  handle_event depth sounds (MOUSEBUTTONDOWN (mx, my) 1) s
  = on_hit depth sounds i hex s.
Proof.
  intros Hi Hhit Hbefore. simpl. unfold left_click. rewrite click_scan_find.
  assert (list_find (fun h => hit offset_x offset_y mx my h = true)
            (grid (world s)) = Some (i, hex)) as ->; [|done].
  apply list_find_Some. split_and!; try done.
  intros j h Hj Hlt. rewrite (Hbefore j h Hlt Hj). done.
Qed.

(** C9: a left click acts on the first cell of the grid, in list order,
    whose centre (computed by [center]) passes the test
    [hypot(mouse - centre) < HEX_SIZE], and on that cell only: the outcome
    is the one of [on_hit] for it, whatever the test gives for the cells
    after it. *)
Theorem left_click_first_hit (mx my : Z) (s : Session) (i : nat) (hex : Hex) :
  grid (world s) !! i = Some hex ->
  hit offset_x offset_y mx my hex = true ->
  (forall j h, (j < i)%nat -> grid (world s) !! j = Some h ->
               hit offset_x offset_y mx my h = false) ->
  handle_event depth sounds (MOUSEBUTTONDOWN (mx, my) 1) s
  = on_hit depth sounds i hex s.
Proof.
  intros Hi Hhit Hbefore. by apply left_click_on_first.
Qed.

(** C10: a left click that passes the hit test for no cell leaves the
    session as it was: no attribute of any cell changes, nothing is
    played, and the loop keeps running. *)
Theorem left_click_miss (mx my : Z) (s : Session) :
  (forall h, h ∈ grid (world s) -> hit offset_x offset_y mx my h = false) ->
  handle_event depth sounds (MOUSEBUTTONDOWN (mx, my) 1) s = Some s.
Proof.
  intros Hmiss. simpl. unfold left_click. rewrite click_scan_find.
  assert (list_find (fun h => hit offset_x offset_y mx my h = true)
            (grid (world s)) = None) as ->; [|done].
  apply list_find_None, Forall_forall. intros h Hh. by rewrite (Hmiss h Hh).
Qed.

(** C1 (as the code has it): a left click whose first hit is a mine takes
    the game-over path and stops the loop; [reveal_hex] is not called, so
    the grid, and with it the [revealed] attribute of the mine, is
    unchanged: only the game-over sound, when loaded, is added to the
    log. *)
Theorem left_click_mine (mx my : Z) (s : Session) (i : nat) (hex : Hex) :
  grid (world s) !! i = Some hex ->
  hit offset_x offset_y mx my hex = true ->
  (forall j h, (j < i)%nat -> grid (world s) !! j = Some h ->
               hit offset_x offset_y mx my h = false) ->
  is_mine hex = true ->
  exists s',
    handle_event depth sounds (MOUSEBUTTONDOWN (mx, my) 1) s = Some s' /\
    running s' = false /\
    grid (world s') = grid (world s) /\
    marked (world s') = marked (world s) /\
    played (world s')
    = (if sounds snd_game_over then [snd_game_over] else [])
      ++ played (world s).
Proof.
  intros Hi Hhit Hbefore Hmine.
  exists {| world := game_over sounds (world s); running := false |}.
  split.
  - rewrite (left_click_on_first mx my s i hex Hi Hhit Hbefore).
    unfold on_hit. by rewrite Hmine.
  - unfold game_over, play. by destruct (sounds snd_game_over).
Qed.
End Click.

(** The click at [(713, 401)] is within the radius of both cells of
    [two_cells]; it acts on the first. *)
Lemma left_click_first_hit_witness :
  grid (world two_cells) !! 0%nat = Some (Hex_init 0 0) /\
  hit offset_x offset_y 713 401 (Hex_init 0 0) = true /\
  hit offset_x offset_y 713 401 (Hex_init 1 0) = true /\
  handle_event 3 all_sounds (MOUSEBUTTONDOWN (713, 401) 1) two_cells
  = on_hit 3 all_sounds 0 (Hex_init 0 0) two_cells.
Proof.
  assert (hit offset_x offset_y 713 401 (Hex_init 0 0) = true) as Hhit
    by (vm_compute; reflexivity).
  split; [reflexivity|]. split; [exact Hhit|].
  split; [vm_compute; reflexivity|].
  apply (left_click_first_hit 3 all_sounds 713 401 two_cells 0 (Hex_init 0 0)
           eq_refl Hhit).
  intros j h Hj. lia.
Defined.

Lemma left_click_miss_witness :
  (forall h, h ∈ grid (world lone_cell) -> hit offset_x offset_y 0 0 h = false) /\
  handle_event 3 all_sounds (MOUSEBUTTONDOWN (0, 0) 1) lone_cell = Some lone_cell.
Proof.
  assert (forall h, h ∈ grid (world lone_cell) ->
                    hit offset_x offset_y 0 0 h = false) as Hmiss.
  { intros h Hh. apply list_elem_of_singleton in Hh. rewrite Hh.
    vm_compute. reflexivity. }
  split; [exact Hmiss|].
  exact (left_click_miss 3 all_sounds 0 0 lone_cell Hmiss).
Defined.

Lemma left_click_mine_witness :
  grid (world lone_mine) !! 0%nat = Some (set_is_mine true (Hex_init 0 0)) /\
  hit offset_x offset_y 683 384 (set_is_mine true (Hex_init 0 0)) = true /\
  is_mine (set_is_mine true (Hex_init 0 0)) = true /\
  exists s',
    handle_event 3 all_sounds (MOUSEBUTTONDOWN (683, 384) 1) lone_mine = Some s' /\
    running s' = false /\
    grid (world s') = grid (world lone_mine) /\
    marked (world s') = marked (world lone_mine) /\
    played (world s')
    = (if all_sounds snd_game_over then [snd_game_over] else [])
      ++ played (world lone_mine).
Proof.
  assert (hit offset_x offset_y 683 384 (set_is_mine true (Hex_init 0 0)) = true)
    as Hhit by (vm_compute; reflexivity).
  split; [reflexivity|]. split; [exact Hhit|]. split; [reflexivity|].
  apply (left_click_mine 3 all_sounds 683 384 lone_mine 0
           (set_is_mine true (Hex_init 0 0)) eq_refl Hhit); [|reflexivity].
  intros j h Hj. lia.
Defined.

(** C1, the claim as written, fails: the click on the mine of [lone_mine]
    ends the game, and the mine's [revealed] attribute is still false. *)
Lemma left_click_mine_not_revealed :
  hit offset_x offset_y 683 384 (set_is_mine true (Hex_init 0 0)) = true /\
  exists s',
    handle_event 3 all_sounds (MOUSEBUTTONDOWN (683, 384) 1) lone_mine = Some s' /\
    running s' = false /\
    revealed <$> grid (world s') !! 0%nat = Some false.
Proof.
  split; [vm_compute; reflexivity|].
  eexists. split; [vm_compute; reflexivity|]. split; reflexivity.
Qed.

(** ** The boards met in play

    The board set up by [main] is playable, and the event handling keeps it
    so: the hypotheses of [reveal_hex_flood] hold at every click. *)

Lemma place_mines_coords (draws : list nat) (g g' : list Hex) (n : Z) :
  place_mines draws g n = Returned g' ->
  coords <$> g' = coords <$> g /\ revealed <$> g' = revealed <$> g.
Proof.
  intros Hret.
  destruct (place_mines_loop_returned _ _ _ _ _ Hret) as (Hlen & Hcells & _).
  split; apply list_eq; intros i; rewrite !list_lookup_fmap;
    destruct (g !! i) as [h|] eqn:Hi.
  1,3: destruct (Hcells i h Hi) as (h' & -> & (Hq & Hr & _ & Hrev & _) & _);
       simpl; unfold coords; congruence.
  all: apply lookup_ge_None in Hi; rewrite <- Hlen in Hi;
       apply lookup_ge_None in Hi; by rewrite Hi.
Qed.

Lemma calculate_adjacent_mines_coords (g : list Hex) :
  coords <$> calculate_adjacent_mines g = coords <$> g /\
  revealed <$> calculate_adjacent_mines g = revealed <$> g.
Proof.
  rewrite calculate_adjacent_mines_settle, <- !list_fmap_compose.
  split; apply list_fmap_ext; intros i h _; simpl;
    unfold settle; by destruct (is_mine h).
Qed.

(** The board as [main] sets it up (lines 152-154). *)
Lemma setup_playable (draws : list nat) (rings n : Z) (g : list Hex) :
  place_mines draws (create_hex_grid rings) n = Returned g ->
  playable (calculate_adjacent_mines g).
Proof.
  intros Hret. apply place_mines_coords in Hret as [Hc Hr].
  destruct (calculate_adjacent_mines_coords g) as [Hc' Hr']. split.
  - rewrite Hc', Hc. apply NoDup_coords_create_hex_grid.
  - apply flood_closed_fresh.
    assert (Forall (fun b : bool => b = false)
              (revealed <$> calculate_adjacent_mines g)) as Hall.
    { rewrite Hr', Hr. apply Forall_fmap, Forall_forall. intros h Hh.
      apply elem_of_create_hex_grid in Hh as [-> _]. done. }
    by apply Forall_fmap in Hall.
Qed.

Lemma reveal_hex_playable (sounds : Sounds) (depth i : nat) (w w' : World) :
  playable (grid w) -> reveal_hex depth sounds i w = Some w' ->
  playable (grid w').
Proof.
  intros [Hnd Hclosed] Hcall. split; [|by eapply reveal_hex_flood_closed].
  destruct (reveal_hex_post sounds depth i w w' Hcall) as [new Hpost].
  pose proof (extends_static _ _ _ _ (post_extends _ _ _ _ _ Hpost)) as Hst.
  apply (f_equal (fmap (fun s : Z * Z * bool * Z => (s.1.1.1, s.1.1.2)))) in Hst.
  rewrite <- !list_fmap_compose in Hst.
  by replace (coords <$> grid w') with (coords <$> grid w).
Qed.

Section Play.
Context {F : Type} `{FloatOps F}.

Lemma handle_event_playable (depth : nat) (sounds : Sounds) (e : Event)
    (s s' : Session) :
  playable (grid (world s)) -> handle_event depth sounds e s = Some s' ->
  playable (grid (world s')).
Proof.
  intros Hp. destruct e as [|key|[mx my] button|]; simpl.
  - by intros [= <-].
  - destruct (key =? K_ESCAPE); by intros [= <-].
  - destruct (button =? 1); [|by intros [= <-]].
    unfold left_click. rewrite click_scan_find.
    destruct (list_find _ _) as [[k hex]|]; [|by intros [= <-]].
    unfold on_hit. destruct (is_mine hex).
    + intros [= <-]. simpl. unfold game_over, play.
      by destruct (sounds snd_game_over).
    + destruct (reveal_hex depth sounds (0 + k) (world s)) as [w'|] eqn:Hcall;
        [|done].
      intros [= <-]. simpl. by eapply reveal_hex_playable.
  - by intros [= <-].
Qed.
End Play.

(** * Further properties *)

(** ** Board construction *)

(** X1: with a negative number of rings both ranges are empty and the grid
    has no cell. *)
Theorem create_hex_grid_negative (rings : Z) :
  rings < 0 -> create_hex_grid rings = [].
Proof.
  intros Hr. unfold create_hex_grid, range. by rewrite (seqZ_nil (- rings)) by lia.
Qed.

Lemma create_hex_grid_negative_witness :
  -1 < 0 /\ create_hex_grid (-1) = [].
Proof. split; [lia|]. apply (create_hex_grid_negative (-1)). lia. Defined.

(** X2: looking a coordinate up in the grid built for [rings] finds the cell
    built for it, in its initial state, when the coordinate lies in the
    hexagonal region, and finds nothing otherwise. *)
Theorem find_hex_create_hex_grid (rings x y : Z) :
  (in_region rings (x, y) ->
   exists i, find_hex (create_hex_grid rings) x y = Some (i, Hex_init x y)) /\
  (~ in_region rings (x, y) ->
   find_hex (create_hex_grid rings) x y = None).
Proof.
  unfold in_region. simpl. split.
  - intros Hin.
    assert (Hex_init x y ∈ create_hex_grid rings) as [i Hi]%list_elem_of_lookup
      by (apply elem_of_create_hex_grid; simpl; done).
    exists i.
    apply (find_hex_lookup _ i (Hex_init x y)
             (NoDup_coords_create_hex_grid rings) Hi).
  - intros Hout.
    destruct (find_hex (create_hex_grid rings) x y) as [[i n]|] eqn:Hf; [|done].
    apply find_hex_Some in Hf as [Hi [= Hq Hr]].
    apply list_elem_of_lookup_2, elem_of_create_hex_grid in Hi.
    destruct Hout. rewrite <- Hq, <- Hr. tauto.
Qed.

Lemma find_hex_create_hex_grid_witness :
  in_region 5 (2, -3) /\
  (exists i, find_hex (create_hex_grid 5) 2 (-3) = Some (i, Hex_init 2 (-3))) /\
  ~ in_region 5 (3, 3) /\
  find_hex (create_hex_grid 5) 3 3 = None.
Proof.
  assert (in_region 5 (2, -3)) as Hin by (unfold in_region; simpl; lia).
  assert (~ in_region 5 (3, 3)) as Hout by (unfold in_region; simpl; lia).
  split; [exact Hin|]. split; [|split; [exact Hout|]].
  - exact (proj1 (find_hex_create_hex_grid 5 2 (-3)) Hin).
  - exact (proj2 (find_hex_create_hex_grid 5 3 3) Hout).
Defined.

(** ** Mine placement *)

(** X3: [place_mines] raises [IndexError] exactly on an empty board: there,
    with a positive count, the first draw raises; on a board with at least
    one cell no draw sequence makes it raise. *)
Theorem place_mines_index_error :
  (forall (k : nat) (draws : list nat) (n : Z),
     0 < n -> place_mines (k :: draws) [] n = Raised IndexError) /\
  (forall (draws : list nat) (g : list Hex) (n : Z) (e : exn),
     g <> [] -> place_mines draws g n <> Raised e).
Proof.
  split.
  - intros k draws n Hn. unfold place_mines. simpl.
    assert ((0 <? n) = true) as -> by (by apply Z.ltb_lt). done.
  - intros draws g n e Hg. by apply place_mines_loop_no_raise.
Qed.

Lemma place_mines_index_error_witness :
  0 < NUM_MINES /\
  place_mines [4%nat] [] NUM_MINES = Raised IndexError /\
  create_hex_grid 1 <> [] /\
  place_mines [4; 4; 2]%nat (create_hex_grid 1) NUM_MINES <> Raised IndexError.
Proof.
  assert (0 < NUM_MINES) as Hn by reflexivity.
  assert (create_hex_grid 1 <> []) as Hg by (vm_compute; discriminate).
  split; [exact Hn|]. split; [|split; [exact Hg|]].
  - exact (proj1 place_mines_index_error 4%nat [] NUM_MINES Hn).
  - exact (proj2 place_mines_index_error [4; 4; 2]%nat (create_hex_grid 1)
             NUM_MINES IndexError Hg).
Defined.

(** X4: on any board, with or without mines already placed, a call of
    [place_mines] that returns has added exactly [num_mines] mines (none for
    a count that is zero or negative), has kept every earlier mine, and has
    changed nothing but [is_mine]. *)
Theorem place_mines_adds (draws : list nat) (g g' : list Hex) (n : Z) :
  place_mines draws g n = Returned g' ->
  Z.of_nat (count_mines g') = Z.of_nat (count_mines g) + Z.max 0 n /\
  length g' = length g /\
  (forall i h, g !! i = Some h ->
     exists h', g' !! i = Some h' /\ same_but_mine h h' /\
                (is_mine h = true -> is_mine h' = true)).
Proof.
  intros Hret.
  destruct (place_mines_loop_returned _ _ _ _ _ Hret) as (Hlen & Hcells & Hcount).
  rewrite Z.sub_0_r in Hcount. done.
Qed.

Lemma place_mines_adds_witness :
  place_mines [2; 0; 2; 1]%nat sample_board 2
  = Returned (with_mines [(1, 0); (0, -1); (-1, 0); (-1, 1)] (create_hex_grid 1)) /\
  Z.of_nat (count_mines (with_mines [(1, 0); (0, -1); (-1, 0); (-1, 1)] (create_hex_grid 1)))
  = Z.of_nat (count_mines sample_board) + Z.max 0 2.
Proof.
  assert (place_mines [2; 0; 2; 1]%nat sample_board 2
          = Returned (with_mines [(1, 0); (0, -1); (-1, 0); (-1, 1)] (create_hex_grid 1)))
    as Hret.
  { vm_compute. reflexivity. }
  split; [exact Hret|].
  exact (proj1 (place_mines_adds _ _ _ _ Hret)).
Defined.

(** X5: when more mines are asked for than the board has cells that are
    not mines yet, on a board with at least one cell, [place_mines] neither
    returns nor raises: after any number of draws it is still in its
    loop. *)
Theorem place_mines_never_exits (draws : list nat) (g : list Hex) (n : Z) :
  g <> [] ->
  Z.of_nat (length g) - Z.of_nat (count_mines g) < n ->
  exists g', place_mines draws g n = Running g'.
Proof.
  intros Hg Hn. destruct (place_mines draws g n) as [g'|e|g'] eqn:E.
  - destruct (place_mines_loop_returned _ _ _ _ _ E) as (Hlen & _ & Hcount).
    pose proof (count_mines_le_length g'). pose proof (count_mines_le_length g).
    lia.
  - by apply place_mines_loop_no_raise in E.
  - by exists g'.
Qed.

Lemma place_mines_never_exits_witness :
  sample_board <> [] /\
  Z.of_nat (length sample_board) - Z.of_nat (count_mines sample_board) < 6 /\
  exists g', place_mines [0; 1; 2; 3; 4; 5; 6; 0; 3]%nat sample_board 6 = Running g'.
Proof.
  assert (sample_board <> []) as Hg by (vm_compute; discriminate).
  assert (Z.of_nat (length sample_board) - Z.of_nat (count_mines sample_board) < 6)
    as Hn by (vm_compute; reflexivity).
  split; [exact Hg|]. split; [exact Hn|].
  exact (place_mines_never_exits _ sample_board 6 Hg Hn).
Defined.

(** ** Adjacency counts *)

Lemma settle_settle (g : list Hex) (h : Hex) :
  settle (settle g <$> g) (settle g h) = settle g h.
Proof.
  assert (skeleton <$> (settle g <$> g) = skeleton <$> g) as Hsk.
  { rewrite <- list_fmap_compose. apply list_fmap_ext.
    intros; simpl; apply skeleton_settle. }
  assert (count_adjacent (settle g <$> g) (settle g h) = count_adjacent g h)
    as Hcount.
  { apply count_adjacent_skeleton; [done|].
    unfold settle. by destruct (is_mine h). }
  unfold settle at 1. rewrite Hcount.
  unfold settle. destruct (is_mine h) eqn:Hm; [by rewrite Hm|].
  simpl. rewrite Hm. done.
Qed.

(** X6: running [calculate_adjacent_mines] a second time changes nothing:
    the counts only depend on the coordinates and the mines, which the pass
    does not touch. *)
Theorem calculate_adjacent_mines_idempotent (g : list Hex) :
  calculate_adjacent_mines (calculate_adjacent_mines g)
  = calculate_adjacent_mines g.
Proof.
  rewrite !calculate_adjacent_mines_settle, <- list_fmap_compose.
  apply list_fmap_ext. intros i h _. simpl. apply settle_settle.
Qed.

(** The count is zero exactly when no direction finds a mine. *)
Lemma count_adjacent_zero (g : list Hex) (h : Hex) :
  count_adjacent g h = 0 <->
  forall d, d ∈ directions -> mine_dir g h d = false.
Proof.
  rewrite count_adjacent_dirs. generalize directions. intros l.
  induction l as [|d l IH].
  - split; [|done]. intros _ d Hd. by apply not_elem_of_nil in Hd.
  - rewrite filter_cons. destruct (decide (mine_dir g h d = true)) as [Hd|Hd].
    + simpl length. split; [lia|]. intros Hall.
      rewrite (Hall d) in Hd by apply list_elem_of_here. done.
    + rewrite IH. split.
      * intros Hall d' [->|Hd']%elem_of_cons; [|by apply Hall].
        by destruct (mine_dir g h d).
      * intros Hall d' Hd'. apply Hall. by apply list_elem_of_further.
Qed.

(** X7: on a board without any mine, whatever its shape and whatever the
    counts stored before, the pass sets every [adjacent_mines] to 0. *)
Theorem calculate_adjacent_mines_no_mines (g : list Hex) :
  Forall (fun h => is_mine h = false) g ->
  Forall (fun h => adjacent_mines h = 0) (calculate_adjacent_mines g).
Proof.
  intros Hfree. rewrite calculate_adjacent_mines_settle.
  apply Forall_fmap, Forall_forall. intros h Hh. simpl.
  rewrite Forall_forall in Hfree. unfold settle. rewrite (Hfree h Hh). simpl.
  apply count_adjacent_zero. intros d _. unfold mine_dir.
  destruct (find_hex g _ _) as [[i n]|] eqn:Hf; [|done].
  apply find_hex_Some in Hf as [Hi _].
  rewrite (Hfree n); [done|]. by eapply list_elem_of_lookup_2.
Qed.

Lemma calculate_adjacent_mines_no_mines_witness :
  Forall (fun h => is_mine h = false)
    [set_adjacent_mines 4 (Hex_init 0 0); Hex_init 1 0] /\
  Forall (fun h => adjacent_mines h = 0)
    (calculate_adjacent_mines
       [set_adjacent_mines 4 (Hex_init 0 0); Hex_init 1 0]).
Proof.
  assert (Forall (fun h => is_mine h = false)
            [set_adjacent_mines 4 (Hex_init 0 0); Hex_init 1 0]) as Hfree
    by (repeat constructor).
  split; [exact Hfree|].
  exact (calculate_adjacent_mines_no_mines _ Hfree).
Defined.

(** ** Reveal *)

(** X8: whatever the board, the cell and the sounds, a call of [reveal_hex]
    that returns has kept the number of cells and, of every cell, the
    coordinates, the colour, [is_mine] and [adjacent_mines]; a cell is
    either left as it was or has had [revealed] set, and a cell that was
    revealed is left as it was. *)
Theorem reveal_hex_frame (sounds : Sounds) (depth i : nat) (w w' : World) :
  reveal_hex depth sounds i w = Some w' ->
  length (grid w') = length (grid w) /\
  forall j h, grid w !! j = Some h ->
    exists h', grid w' !! j = Some h' /\
      static h' = static h /\ color h' = color h /\
      (h' = h \/ revealed h = false /\ h' = set_revealed true h).
Proof.
  intros Hcall. destruct (reveal_hex_post sounds depth i w w' Hcall) as [new Hpost].
  pose proof (post_extends _ _ _ _ _ Hpost) as Hext.
  split; [by eapply extends_length|].
  intros j h Hj. exists (mark_in new j h).
  split; [by rewrite (ext_cells _ _ _ _ Hext), Hj|].
  unfold mark_in. destruct (bool_decide_reflect (j ∈ new)) as [Hin|Hout].
  - split_and!; try done. right.
    destruct (ext_hidden _ _ _ _ Hext j Hin) as (h0 & Hj0 & Hr0).
    split; [congruence|done].
  - split_and!; try done. by left.
Qed.

Lemma reveal_hex_frame_witness :
  exists w',
    reveal_hex 8 all_sounds 1 (fresh_world sample_board) = Some w' /\
    length (grid w') = length (grid (fresh_world sample_board)).
Proof.
  eexists. split; [vm_compute; reflexivity|].
  refine (proj1 (reveal_hex_frame all_sounds 8 1 (fresh_world sample_board) _ _)).
  vm_compute. reflexivity.
Defined.

Lemma sound_log_replicate (sounds : Sounds) (new : list nat) :
  sound_log sounds new
  = if sounds snd_reveal then replicate (length new) snd_reveal else [].
Proof.
  unfold sound_log. destruct (sounds snd_reveal); [|done].
  induction new as [|j new IH]; [done|]. simpl. by rewrite <- IH.
Qed.

(** X9: a returning call of [reveal_hex] plays the reveal sound once for
    every cell it reveals when that sound is loaded, and plays nothing when
    it is not; the cells it marks, each once, are exactly the cells hidden
    before and revealed after. *)
Theorem reveal_hex_sounds (sounds : Sounds) (depth i : nat) (w w' : World) :
  reveal_hex depth sounds i w = Some w' ->
  exists new,
    marked w' = new ++ marked w /\ NoDup new /\
    (forall j, j ∈ new <-> hidden_at (grid w) j /\ revealed_at (grid w') j) /\
    played w'
    = (if sounds snd_reveal then replicate (length new) snd_reveal else [])
      ++ played w.
Proof.
  intros Hcall. destruct (reveal_hex_post sounds depth i w w' Hcall) as [new Hpost].
  pose proof (post_extends _ _ _ _ _ Hpost) as Hext.
  exists new. split; [apply Hext|]. split; [apply Hext|]. split.
  - intros j. split.
    + intros Hj. split; [by apply (ext_hidden _ _ _ _ Hext)|].
      apply (extends_revealed_at _ _ _ _ j Hext). by right.
    + intros [(h & Hj & Hh) Hrev].
      apply (extends_revealed_at _ _ _ _ j Hext) in Hrev as [(h0 & Hj0 & Hr0)|Hin];
        [congruence|done].
  - rewrite <- sound_log_replicate. apply Hext.
Qed.

Lemma reveal_hex_sounds_witness :
  exists w' new,
    reveal_hex 8 (fun _ => false) 3 (fresh_world (create_hex_grid 1)) = Some w' /\
    marked w' = new ++ [] /\ NoDup new /\ played w' = [] ++ [].
Proof.
  assert (exists w', reveal_hex 8 (fun _ => false) 3
                       (fresh_world (create_hex_grid 1)) = Some w') as [w' Hcall]
    by (eexists; vm_compute; reflexivity).
  destruct (reveal_hex_sounds (fun _ => false) 8 3 _ w' Hcall)
    as (new & Hmarked & Hnodup & _ & Hplayed).
  exists w', new. split_and!; assumption.
Defined.

(** Along the edges followed from a cell that is not a mine, on a board with
    computed counts, no mine is reached. *)
Lemma reach_no_mine (g : list Hex) (i k : nat) (c h : Hex) :
  adjacency_ok g -> g !! i = Some c -> is_mine c = false ->
  rtc (edge g) i k -> g !! k = Some h -> is_mine h = false.
Proof.
  intros Hok Hi Hc Hreach. revert h. revert k Hreach.
  apply (rtc_ind_r (fun k => forall h, g !! k = Some h -> is_mine h = false)).
  - intros h Hh. congruence.
  - intros j k _ (a & d & n & Hj & [Hzero Hmine] & Hd & Hf) _ h Hk.
    pose proof (find_hex_Some _ _ _ _ _ Hf) as [Hk' _].
    assert (n = h) as -> by congruence.
    assert (count_adjacent g a = 0) as Hcount.
    { rewrite <- (Hok a); [done| |done]. by eapply list_elem_of_lookup_2. }
    pose proof (proj1 (count_adjacent_zero g a) Hcount d Hd) as Hdir.
    unfold mine_dir in Hdir. by rewrite Hf in Hdir.
Qed.

Lemma reveal_hex_adjacency_ok (sounds : Sounds) (depth i : nat) (w w' : World) :
  adjacency_ok (grid w) -> reveal_hex depth sounds i w = Some w' ->
  adjacency_ok (grid w').
Proof.
  intros Hok Hcall.
  destruct (reveal_hex_post sounds depth i w w' Hcall) as [new Hpost].
  pose proof (extends_static _ _ _ _ (post_extends _ _ _ _ _ Hpost)) as Hst.
  intros h' [j Hj']%list_elem_of_lookup Hm.
  destruct (static_lookup (grid w') (grid w) j h' (eq_sym Hst) Hj')
    as (h & Hj & Hsth).
  unfold static in Hsth. injection Hsth as Hq Hr Hmi Had.
  rewrite <- Had, (Hok h); [|by eapply list_elem_of_lookup_2|congruence].
  apply count_adjacent_skeleton; [by apply static_skeleton|].
  unfold coords. congruence.
Qed.

Lemma reveal_hex_no_revealed_mine (sounds : Sounds) (depth i : nat)
    (w w' : World) (c : Hex) :
  adjacency_ok (grid w) -> no_revealed_mine (grid w) ->
  grid w !! i = Some c -> is_mine c = false ->
  reveal_hex depth sounds i w = Some w' ->
  no_revealed_mine (grid w').
Proof.
  intros Hok Hnone Hi Hc Hcall.
  destruct (reveal_hex_post sounds depth i w w' Hcall) as [new Hpost].
  pose proof (post_extends _ _ _ _ _ Hpost) as Hext.
  intros h' [j Hj']%list_elem_of_lookup Hm.
  pose proof (ext_cells _ _ _ _ Hext j) as Hcj. rewrite Hj' in Hcj.
  destruct (grid w !! j) as [h|] eqn:Hj; [|done].
  simpl in Hcj. injection Hcj as ->. unfold mark_in in *.
  destruct (bool_decide_reflect (j ∈ new)) as [Hin|Hout].
  - simpl in Hm.
    pose proof (reach_no_mine (grid w) i j c h Hok Hi Hc
                  (post_reach _ _ _ _ _ Hpost j Hin) Hj). congruence.
  - apply (Hnone h); [by eapply list_elem_of_lookup_2|done].
Qed.

(** X10: on a board whose counts are the computed ones, [reveal_hex]
    started on a cell that is not a mine never reveals a mine: if no mine
    was revealed before the call, none is after it, however far the flood
    goes. *)
Theorem reveal_hex_never_reveals_mine (sounds : Sounds) (depth i : nat)
    (w w' : World) (c : Hex) :
  adjacency_ok (grid w) -> no_revealed_mine (grid w) ->
  grid w !! i = Some c -> is_mine c = false ->
  reveal_hex depth sounds i w = Some w' ->
  no_revealed_mine (grid w') /\ adjacency_ok (grid w').
Proof.
  intros Hok Hnone Hi Hc Hcall. split.
  - by eapply reveal_hex_no_revealed_mine.
  - by eapply reveal_hex_adjacency_ok.
Qed.

Lemma calculate_adjacent_mines_adjacency_ok (g : list Hex) :
  adjacency_ok (calculate_adjacent_mines g).
Proof.
  rewrite calculate_adjacent_mines_settle.
  intros h' (h & -> & Hh)%list_elem_of_fmap Hm.
  assert (is_mine h = false) as Hmh.
  { rewrite <- Hm. unfold settle. by destruct (is_mine h) eqn:E. }
  transitivity (count_adjacent g h); [unfold settle; by rewrite Hmh|].
  apply count_adjacent_skeleton.
  - symmetry. rewrite <- list_fmap_compose. apply list_fmap_ext.
    intros; simpl; apply skeleton_settle.
  - unfold settle. by rewrite Hmh.
Qed.

Lemma no_revealed_mine_fresh (g : list Hex) :
  Forall (fun h => revealed h = false) g -> no_revealed_mine g.
Proof. intros Hfresh h Hh _. by apply (proj1 (Forall_forall _ _) Hfresh). Qed.

Lemma reveal_hex_never_reveals_mine_witness :
  adjacency_ok (grid (fresh_world sample_board)) /\
  no_revealed_mine (grid (fresh_world sample_board)) /\
  grid (fresh_world sample_board) !! 1%nat = Some (Hex_init (-1) 1) /\
  is_mine (Hex_init (-1) 1) = false /\
  exists w',
    reveal_hex 8 all_sounds 1 (fresh_world sample_board) = Some w' /\
    no_revealed_mine (grid w').
Proof.
  assert (adjacency_ok (grid (fresh_world sample_board))) as Hok
    by apply calculate_adjacent_mines_adjacency_ok.
  assert (no_revealed_mine (grid (fresh_world sample_board))) as Hnone.
  { apply no_revealed_mine_fresh. apply (bool_decide_unpack _). vm_compute. exact I. }
  assert (grid (fresh_world sample_board) !! 1%nat = Some (Hex_init (-1) 1)) as Hi
    by (vm_compute; reflexivity).
  split_and!; try assumption; [reflexivity|].
  assert (exists w', reveal_hex 8 all_sounds 1 (fresh_world sample_board) = Some w')
    as [w' Hcall] by (eexists; vm_compute; reflexivity).
  exists w'. split; [exact Hcall|].
  exact (proj1 (reveal_hex_never_reveals_mine all_sounds 8 1 _ w'
                  (Hex_init (-1) 1) Hok Hnone Hi eq_refl Hcall)).
Defined.

(** A loop over the directions that returns with one function for the
    recursive calls returns the same with any function that returns at
    least as often. *)
Lemma foldl_visit_mono (rec1 rec2 : nat -> World -> option World) (h : Hex)
    (ds : list (Z * Z)) (ow : option World) (w' : World) :
  (forall j w w1, rec1 j w = Some w1 -> rec2 j w = Some w1) ->
  foldl (visit rec1 h) ow ds = Some w' ->
  foldl (visit rec2 h) ow ds = Some w'.
Proof.
  intros Hrec. revert ow. induction ds as [|d ds IH]; intros ow; [done|].
  simpl. intros Hloop.
  destruct (visit rec1 h ow d) as [w1|] eqn:E1;
    [|by rewrite foldl_visit_None in Hloop].
  assert (visit rec2 h ow d = Some w1) as ->; [|by apply IH].
  unfold visit in *. destruct ow as [w|]; [|done].
  destruct (find_hex (grid w) _ _) as [[j n]|]; [by apply Hrec|done].
Qed.

Lemma reveal_hex_deeper_S (sounds : Sounds) (depth i : nat) (w w' : World) :
  reveal_hex depth sounds i w = Some w' ->
  reveal_hex (S depth) sounds i w = Some w'.
Proof.
  revert i w w'. induction depth as [|d IH]; intros i w w'; [done|].
  rewrite (reveal_hex_S (S d)), (reveal_hex_S d).
  destruct (grid w !! i) as [h|]; [|done].
  destruct (revealed h); [done|]. cbv zeta.
  destruct ((adjacent_mines h =? 0) && negb (is_mine h)); [|done].
  apply foldl_visit_mono. apply IH.
Qed.

(** X11: the result of [reveal_hex] does not depend on how much nesting is
    allowed, once it is enough: a call that returns at one depth returns the
    same state at every larger depth. *)
Theorem reveal_hex_deeper (sounds : Sounds) (depth more i : nat) (w w' : World) :
  reveal_hex depth sounds i w = Some w' ->
  reveal_hex (depth + more) sounds i w = Some w'.
Proof.
  intros Hcall. induction more as [|more IH].
  - by rewrite Nat.add_0_r.
  - rewrite Nat.add_succ_r. by apply reveal_hex_deeper_S.
Qed.

Lemma reveal_hex_deeper_witness :
  exists w',
    reveal_hex 8 all_sounds 3 (fresh_world (create_hex_grid 1)) = Some w' /\
    reveal_hex (8 + 992) all_sounds 3 (fresh_world (create_hex_grid 1)) = Some w'.
Proof.
  assert (exists w', reveal_hex 8 all_sounds 3
                       (fresh_world (create_hex_grid 1)) = Some w') as [w' Hcall]
    by (eexists; vm_compute; reflexivity).
  exists w'. split; [exact Hcall|].
  exact (reveal_hex_deeper all_sounds 8 992 3 _ w' Hcall).
Defined.

(** *** The board without mines *)

Lemma adj_intro (x y x' y' : Z) (d : Z * Z) :
  d ∈ directions -> x' = x + d.1 -> y' = y + d.2 -> adj (x, y) (x', y').
Proof. intros Hd -> ->. by apply adj_shift. Qed.

(** Every cell of the region but the centre has a neighbour in the region
    that is nearer to the centre. *)
Lemma step_closer (R : Z) (p : Z * Z) :
  in_region R p -> p <> (0, 0) ->
  exists p', in_region R p' /\ span p' < span p /\ adj p p' /\ adj p' p.
Proof.
  destruct p as [x y]. unfold in_region, span. simpl. intros Hin Hne.
  assert (x <> 0 \/ y <> 0) as Hxy.
  { destruct (decide (x = 0)) as [->|]; [|by left].
    right. intros ->. done. }
  assert (forall d : Z * Z, bool_decide (d ∈ directions) = true -> d ∈ directions)
    as Hdir by (intros d Hd; by apply bool_decide_eq_true in Hd).
  destruct (Z_lt_le_dec 0 x) as [Hx|Hx]; [destruct (Z_lt_le_dec y 0)|
    destruct (Z_lt_le_dec x 0) as [Hx'|Hx']; [destruct (Z_lt_le_dec 0 y)|
      destruct (Z_lt_le_dec 0 y)]].
  - exists (x - 1, y + 1). simpl. split_and!; try lia.
    + apply (adj_intro _ _ _ _ (-1, 1)); [by apply Hdir|simpl; lia..].
    + apply (adj_intro _ _ _ _ (1, -1)); [by apply Hdir|simpl; lia..].
  - exists (x - 1, y). simpl. split_and!; try lia.
    + apply (adj_intro _ _ _ _ (-1, 0)); [by apply Hdir|simpl; lia..].
    + apply (adj_intro _ _ _ _ (1, 0)); [by apply Hdir|simpl; lia..].
  - exists (x + 1, y - 1). simpl. split_and!; try lia.
    + apply (adj_intro _ _ _ _ (1, -1)); [by apply Hdir|simpl; lia..].
    + apply (adj_intro _ _ _ _ (-1, 1)); [by apply Hdir|simpl; lia..].
  - exists (x + 1, y). simpl. split_and!; try lia.
    + apply (adj_intro _ _ _ _ (1, 0)); [by apply Hdir|simpl; lia..].
    + apply (adj_intro _ _ _ _ (-1, 0)); [by apply Hdir|simpl; lia..].
  - exists (x, y - 1). simpl. split_and!; try lia.
    + apply (adj_intro _ _ _ _ (0, -1)); [by apply Hdir|simpl; lia..].
    + apply (adj_intro _ _ _ _ (0, 1)); [by apply Hdir|simpl; lia..].
  - exists (x, y + 1). simpl. split_and!; try lia.
    + apply (adj_intro _ _ _ _ (0, 1)); [by apply Hdir|simpl; lia..].
    + apply (adj_intro _ _ _ _ (0, -1)); [by apply Hdir|simpl; lia..].
Qed.

Lemma zero_at_create_hex_grid (R : Z) (p : Z * Z) :
  in_region R p -> zero_at (create_hex_grid R) p.
Proof.
  destruct p as [x y]. intros Hin. exists (Hex_init x y). split_and!; try done.
  apply elem_of_create_hex_grid. by simpl.
Qed.

(** The board without mines is one zero region. *)
Lemma create_hex_grid_connected (R : Z) (c a : Z * Z) :
  in_region R c -> in_region R a -> zero_region (create_hex_grid R) c a.
Proof.
  intros Hc Ha.
  assert (forall (n : nat) (b : Z * Z), in_region R b -> span b <= Z.of_nat n ->
            zero_region (create_hex_grid R) c b ->
            zero_region (create_hex_grid R) c (0, 0)) as Hto.
  { induction n as [|n IH]; intros b Hb Hn Hreg.
    - assert (b = (0, 0)) as ->; [|done].
      destruct b as [x y]. unfold span in Hn. simpl in Hn. f_equal; lia.
    - destruct (decide (b = (0, 0))) as [->|Hne]; [done|].
      destruct (step_closer R b Hb Hne) as (b' & Hb' & Hlt & Hadj & _).
      apply (IH b' Hb'); [lia|].
      eapply zr_step; [exact Hreg|exact Hadj|by apply zero_at_create_hex_grid]. }
  assert (forall (n : nat) (b : Z * Z), in_region R b -> span b <= Z.of_nat n ->
            zero_region (create_hex_grid R) c (0, 0) ->
            zero_region (create_hex_grid R) c b) as Hfrom.
  { induction n as [|n IH]; intros b Hb Hn Hreg.
    - assert (b = (0, 0)) as ->; [|done].
      destruct b as [x y]. unfold span in Hn. simpl in Hn. f_equal; lia.
    - destruct (decide (b = (0, 0))) as [->|Hne]; [done|].
      destruct (step_closer R b Hb Hne) as (b' & Hb' & Hlt & _ & Hadj).
      eapply zr_step; [|exact Hadj|by apply zero_at_create_hex_grid].
      apply (IH b' Hb'); [lia|done]. }
  assert (0 <= span c /\ 0 <= span a) as [Hsc Hsa] by (unfold span; lia).
  apply (Hfrom (Z.to_nat (span a)) a Ha); [lia|].
  apply (Hto (Z.to_nat (span c)) c Hc); [lia|].
  constructor. by apply zero_at_create_hex_grid.
Qed.

(** Without mines, the counts computed for the grid are the zeros it was
    built with. *)
Lemma calculate_adjacent_mines_create_hex_grid (R : Z) :
  calculate_adjacent_mines (create_hex_grid R) = create_hex_grid R.
Proof.
  rewrite calculate_adjacent_mines_settle.
  rewrite <- (list_fmap_id (create_hex_grid R)) at 3.
  apply list_fmap_ext. intros i h Hi. simpl.
  assert (h ∈ create_hex_grid R) as Hh by (by eapply list_elem_of_lookup_2).
  apply elem_of_create_hex_grid in Hh as [Hinit _].
  assert (count_adjacent (create_hex_grid R) h = 0) as Hcount.
  { apply count_adjacent_zero. intros d _. unfold mine_dir.
    destruct (find_hex _ _ _) as [[k n]|] eqn:Hf; [|done].
    apply find_hex_Some in Hf as [Hk _].
    apply list_elem_of_lookup_2, elem_of_create_hex_grid in Hk as [-> _]. done. }
  unfold settle. rewrite Hcount, Hinit. done.
Qed.

(** X12: on the board of any radius with no mine placed, revealing any one
    cell reveals the whole board: the call returns as soon as the depth
    allowed exceeds the number of cells, every cell is revealed afterwards,
    and every cell has been marked exactly once. *)
Theorem reveal_hex_no_mines_floods_all (sounds : Sounds) (R : Z) (depth i : nat) :
  (i < length (create_hex_grid R))%nat ->
  (length (create_hex_grid R) < depth)%nat ->
  exists w',
    reveal_hex depth sounds i (fresh_world (create_hex_grid R)) = Some w' /\
    Forall (fun h => revealed h = true) (grid w') /\
    marked w' ≡ₚ seq 0 (length (create_hex_grid R)).
Proof.
  intros Hi Hdepth. set (g := create_hex_grid R) in *.
  set (w := fresh_world g).
  assert (grid w = g) as Hgrid by apply calculate_adjacent_mines_create_hex_grid.
  assert (forall k n, g !! k = Some n ->
            n = Hex_init (q n) (r n) /\ in_region R (coords n)) as Hcell.
  { intros k n Hk. apply list_elem_of_lookup_2, elem_of_create_hex_grid in Hk.
    unfold in_region, coords. simpl. tauto. }
  assert (count_hidden (grid w) < depth)%nat as Hd.
  { rewrite Hgrid. pose proof (length_filter (fun h => revealed h = false) g).
    unfold count_hidden. lia. }
  destruct (reveal_hex_returns sounds depth i w Hd) as (w' & new & Hcall & Hpost).
  pose proof (post_extends _ _ _ _ _ Hpost) as Hext.
  destruct (lookup_lt_is_Some_2 g i Hi) as [c Hc].
  destruct (Hcell i c Hc) as [Hcinit Hcin].
  assert (forall k n, g !! k = Some n -> revealed_at (grid w') k) as Hall.
  { intros k n Hk. destruct (Hcell k n Hk) as [_ Hnin].
    apply (zero_region_revealed sounds i w w' new c (coords n) Hpost)
      with (n := n).
    - rewrite Hgrid. apply NoDup_coords_create_hex_grid.
    - rewrite Hgrid. apply flood_closed_fresh, Forall_forall. intros h Hh.
      apply elem_of_create_hex_grid in Hh as [-> _]. done.
    - by rewrite Hgrid.
    - by rewrite Hcinit.
    - rewrite Hgrid. by apply create_hex_grid_connected.
    - by rewrite Hgrid.
    - by left. }
  exists w'. split; [done|]. split.
  - apply Forall_lookup. intros k h' Hk'.
    pose proof (ext_cells _ _ _ _ Hext k) as Hck. rewrite Hk', Hgrid in Hck.
    destruct (g !! k) as [n|] eqn:Hk; [|done].
    destruct (Hall k n Hk) as (h'' & Hk'' & Hrev). congruence.
  - rewrite (ext_marked _ _ _ _ Hext). simpl. rewrite app_nil_r.
    apply NoDup_Permutation; [apply Hext|apply NoDup_seq|].
    intros k. rewrite elem_of_seq. split.
    + intros Hk. destruct (ext_hidden _ _ _ _ Hext k Hk) as (n & Hn & _).
      rewrite Hgrid in Hn. apply lookup_lt_Some in Hn. lia.
    + intros [_ Hk]. destruct (lookup_lt_is_Some_2 g k) as [n Hn]; [lia|].
      pose proof (Hall k n Hn) as Hrev.
      apply (extends_revealed_at _ _ _ _ k Hext) in Hrev as [(h0 & Hk0 & Hr0)|Hin];
        [|done].
      rewrite Hgrid in Hk0. destruct (Hcell k n Hn) as [Hninit _].
      assert (h0 = n) as -> by congruence. rewrite Hninit in Hr0. done.
Qed.

Lemma reveal_hex_no_mines_floods_all_witness :
  (5 < length (create_hex_grid 2))%nat /\
  (length (create_hex_grid 2) < 20)%nat /\
  exists w',
    reveal_hex 20 all_sounds 5 (fresh_world (create_hex_grid 2)) = Some w' /\
    Forall (fun h => revealed h = true) (grid w') /\
    marked w' ≡ₚ seq 0 (length (create_hex_grid 2)).
Proof.
  assert (5 < length (create_hex_grid 2))%nat as Hi by (vm_compute; lia).
  assert (length (create_hex_grid 2) < 20)%nat as Hd by (vm_compute; lia).
  split; [exact Hi|]. split; [exact Hd|].
  exact (reveal_hex_no_mines_floods_all all_sounds 2 20 5 Hi Hd).
Defined.

(** ** The main loop *)

Lemma count_mines_skeleton (g g' : list Hex) :
  skeleton <$> g = skeleton <$> g' -> count_mines g = count_mines g'.
Proof.
  unfold count_mines. revert g'. induction g as [|x g IH]; intros [|y g'] Hs;
    try done.
  rewrite !fmap_cons in Hs. apply (inj2 cons) in Hs as [Hxy Hs].
  rewrite !filter_cons. unfold skeleton in Hxy.
  assert (is_mine x = is_mine y) as Hm by congruence.
  specialize (IH g' Hs).
  destruct (decide (is_mine x = true)), (decide (is_mine y = true));
    simpl; congruence.
Qed.

Section Loop.
Context {F : Type} `{FloatOps F}.
Variables (depth : nat) (sounds : Sounds).

Lemma handle_events_nil (s : Session) :
  handle_events depth sounds [] s = Some s.
Proof. done. Qed.

Lemma handle_events_None (events : list Event) :
  foldl (fun os event =>
    match os with
    | Some s => handle_event depth sounds event s
    | None => None
    end) None events = None.
Proof. by induction events. Qed.

Lemma handle_events_cons (e : Event) (events : list Event) (s s' : Session) :
  handle_events depth sounds (e :: events) s = Some s' <->
  exists s1, handle_event depth sounds e s = Some s1 /\
             handle_events depth sounds events s1 = Some s'.
Proof.
  unfold handle_events. simpl. split.
  - destruct (handle_event depth sounds e s) as [s1|]; [eauto|].
    by rewrite handle_events_None.
  - by intros (s1 & -> & Hs).
Qed.

(** A property of sessions kept by every event is kept by a batch of events
    and by the loop. *)
Lemma handle_events_invariant (P : Session -> Prop) :
  (forall e s s', P s -> handle_event depth sounds e s = Some s' -> P s') ->
  forall events s s', P s -> handle_events depth sounds events s = Some s' -> P s'.
Proof.
  intros Hstep events. induction events as [|e events IH]; intros s s' Hs.
  - by intros [= <-].
  - intros (s1 & He & Hrest)%handle_events_cons. eauto.
Qed.

Lemma main_loop_invariant (P : Session -> Prop) :
  (forall e s s', P s -> handle_event depth sounds e s = Some s' -> P s') ->
  forall frames s s', P s -> main_loop depth sounds frames s = Some s' -> P s'.
Proof.
  intros Hstep frames. induction frames as [|events frames IH]; intros s s' Hs.
  - simpl. destruct (running s); by intros [= <-].
  - simpl. destruct (running s); [|by intros [= <-]].
    destruct (handle_events depth sounds events s) as [s1|] eqn:E; [|done].
    apply IH. by eapply handle_events_invariant.
Qed.

(** What one event does to the session. *)
Lemma handle_event_cases (e : Event) (s s' : Session) :
  handle_event depth sounds e s = Some s' ->
  (world s' = world s /\ (running s' = running s \/ running s' = false)) \/
  (world s' = game_over sounds (world s) /\ running s' = false) \/
  (exists i hex, grid (world s) !! i = Some hex /\ is_mine hex = false /\
                 reveal_hex depth sounds i (world s) = Some (world s') /\
                 running s' = running s).
Proof.
  destruct e as [|key|[mx my] button|]; simpl.
  - intros [= <-]. left. simpl. auto.
  - destruct (key =? K_ESCAPE); intros [= <-]; left; simpl; auto.
  - destruct (button =? 1); [|intros [= <-]; left; auto].
    unfold left_click. rewrite click_scan_find.
    destruct (list_find _ _) as [[k hex]|] eqn:Hfind; [|intros [= <-]; left; auto].
    apply list_find_Some in Hfind as (Hk & _ & _).
    unfold on_hit. destruct (is_mine hex) eqn:Hm.
    + intros [= <-]. right. left. simpl. auto.
    + destruct (reveal_hex depth sounds (0 + k) (world s)) as [w'|] eqn:Hcall;
        [|done].
      intros [= <-]. right. right. exists k, hex. simpl. auto.
  - intros [= <-]. left. auto.
Qed.

Lemma handle_event_stopped (e : Event) (s s' : Session) :
  running s = false -> handle_event depth sounds e s = Some s' ->
  running s' = false.
Proof.
  intros Hr He.
  destruct (handle_event_cases e s s' He)
    as [[_ [->| ->]]|[[_ ->]|(i & hex & _ & _ & _ & ->)]]; done.
Qed.

(** X13: no event ever sets [running] again: once it is false it is false
    after every further event of the batch, and the loop handles no further
    batch. *)
Theorem running_never_resumes (events : list Event) (frames : list (list Event))
    (s s' : Session) :
  running s = false ->
  (handle_events depth sounds events s = Some s' -> running s' = false) /\
  main_loop depth sounds frames s = Some s.
Proof.
  intros Hr. split.
  - apply (handle_events_invariant (fun s => running s = false)); [|done].
    intros e s0 s1. apply handle_event_stopped.
  - destruct frames; simpl; by rewrite Hr.
Qed.

(** X14: a quit request or the escape key anywhere in the events of a frame
    ends the loop with that frame: the other events of the frame are still
    handled, the frame ends with [running] false, and the frames after it
    are not looked at. *)
Theorem quit_ends_loop (events : list Event) (frames : list (list Event))
    (s s1 : Session) :
  running s = true ->
  QUIT ∈ events \/ KEYDOWN K_ESCAPE ∈ events ->
  handle_events depth sounds events s = Some s1 ->
  running s1 = false /\
  main_loop depth sounds (events :: frames) s = Some s1.
Proof.
  intros Hr Hquit Hbatch.
  assert (running s1 = false) as Hr1.
  { clear Hr. revert s Hbatch. induction events as [|e events IH]; intros s.
    { destruct Hquit as [Hq|Hq]; by apply not_elem_of_nil in Hq. }
    intros (s0 & He & Hrest)%handle_events_cons.
    assert (e = QUIT \/ e = KEYDOWN K_ESCAPE \/
            (QUIT ∈ events \/ KEYDOWN K_ESCAPE ∈ events)) as [->|[->|Hin]].
    { destruct Hquit as [[->|Hq]%elem_of_cons|[->|Hq]%elem_of_cons]; auto. }
    - simpl in He. injection He as <-.
      revert Hrest.
      apply (handle_events_invariant (fun s => running s = false)); [|done].
      intros e s2 s3. apply handle_event_stopped.
    - simpl in He. injection He as <-.
      revert Hrest.
      apply (handle_events_invariant (fun s => running s = false)); [|done].
      intros e s2 s3. apply handle_event_stopped.
    - by apply (IH Hin s0). }
  split; [done|]. simpl. rewrite Hr, Hbatch.
  destruct frames; simpl; by rewrite Hr1.
Qed.
End Loop.

Lemma running_never_resumes_witness :
  running {| world := world lone_cell; running := false |} = false /\
  (exists s',
     handle_events 3 all_sounds [MOUSEBUTTONDOWN (683, 384) 1]
       {| world := world lone_cell; running := false |} = Some s' /\
     revealed <$> grid (world s') = [true] /\
     running s' = false) /\
  main_loop 3 all_sounds [[MOUSEBUTTONDOWN (683, 384) 1]]
    {| world := world lone_cell; running := false |}
  = Some {| world := world lone_cell; running := false |}.
Proof.
  split; [reflexivity|].
  pose proof (running_never_resumes 3 all_sounds
                [MOUSEBUTTONDOWN (683, 384) 1] [[MOUSEBUTTONDOWN (683, 384) 1]]
                {| world := world lone_cell; running := false |}) as Hx.
  split.
  - eexists. split; [vm_compute; reflexivity|]. split; [reflexivity|].
    refine (proj1 (Hx _ eq_refl) _). vm_compute. reflexivity.
  - exact (proj2 (Hx {| world := world lone_cell; running := false |} eq_refl)).
Defined.

Lemma quit_ends_loop_witness :
  running lone_cell = true /\
  QUIT ∈ [QUIT; MOUSEBUTTONDOWN (683, 384) 1] /\
  exists s1,
    handle_events 3 all_sounds [QUIT; MOUSEBUTTONDOWN (683, 384) 1] lone_cell
    = Some s1 /\
    revealed <$> grid (world s1) = [true] /\
    running s1 = false /\
    main_loop 3 all_sounds
      [[QUIT; MOUSEBUTTONDOWN (683, 384) 1]; [MOUSEBUTTONDOWN (0, 0) 1]] lone_cell
    = Some s1.
Proof.
  assert (QUIT ∈ [QUIT; MOUSEBUTTONDOWN (683, 384) 1]) as Hq
    by apply list_elem_of_here.
  split; [reflexivity|]. split; [exact Hq|].
  eexists. split; [vm_compute; reflexivity|]. split; [reflexivity|].
  refine (quit_ends_loop 3 all_sounds _ [[MOUSEBUTTONDOWN (0, 0) 1]] lone_cell _
            eq_refl (or_introl Hq) _).
  vm_compute. reflexivity.
Defined.

(** *** The game set up by [main] *)

Lemma main_setup_Returned (draws : list nat) (s0 : Session) :
  main_setup draws = Returned s0 ->
  exists g, place_mines draws (create_hex_grid 5) NUM_MINES = Returned g /\
            s0 = {| world := fresh_world g; running := true |}.
Proof.
  unfold main_setup.
  destruct (place_mines draws (create_hex_grid 5) NUM_MINES) as [g|e|g];
    [|done..].
  intros [= <-]. by exists g.
Qed.

Section Game.
Context {F : Type} `{FloatOps F}.
Variables (depth : nat) (sounds : Sounds).

(** Every event keeps the size of the board, its mines, its counts and the
    fact that no mine is revealed. *)
Lemma handle_event_board (n m : nat) (e : Event) (s s' : Session) :
  (length (grid (world s)) = n /\ count_mines (grid (world s)) = m /\
   adjacency_ok (grid (world s)) /\ no_revealed_mine (grid (world s)) /\
   playable (grid (world s))) ->
  handle_event depth sounds e s = Some s' ->
  length (grid (world s')) = n /\ count_mines (grid (world s')) = m /\
  adjacency_ok (grid (world s')) /\ no_revealed_mine (grid (world s')) /\
  playable (grid (world s')).
Proof.
  intros (Hlen & Hmines & Hok & Hnone & Hplay) He.
  destruct (handle_event_cases depth sounds e s s' He)
    as [[-> _]|[[-> _]|(i & hex & Hi & Hm & Hcall & _)]].
  - done.
  - unfold game_over, play. by destruct (sounds snd_game_over).
  - destruct (reveal_hex_post sounds depth i _ _ Hcall) as [new Hpost].
    pose proof (post_extends _ _ _ _ _ Hpost) as Hext.
    split_and!.
    + by rewrite (extends_length _ _ _ _ Hext).
    + rewrite <- Hmines. symmetry.
      by apply count_mines_skeleton, static_skeleton, (extends_static sounds _ _ new).
    + by eapply reveal_hex_adjacency_ok.
    + by eapply reveal_hex_no_revealed_mine.
    + by eapply reveal_hex_playable.
Qed.

(** X15: in every state the game reaches, from the board set up by [main]
    through any frames of events, the board has its 91 cells at pairwise
    distinct coordinates, exactly [NUM_MINES] of them are mines, the counts
    of the cells that are not mines are the computed ones, and no mine is
    revealed. *)
Theorem game_invariant (draws : list nat) (frames : list (list Event))
    (s0 s' : Session) :
  main_setup draws = Returned s0 ->
  main_loop depth sounds frames s0 = Some s' ->
  length (grid (world s')) = 91%nat /\
  Z.of_nat (count_mines (grid (world s'))) = NUM_MINES /\
  adjacency_ok (grid (world s')) /\
  no_revealed_mine (grid (world s')) /\
  NoDup (coords <$> grid (world s')).
Proof.
  intros (g & Hplace & ->)%main_setup_Returned Hloop.
  assert (length (grid (world s')) = 91%nat /\
          count_mines (grid (world s')) = 10%nat /\
          adjacency_ok (grid (world s')) /\ no_revealed_mine (grid (world s')) /\
          playable (grid (world s'))) as (? & Hm & ? & ? & [? _]).
  { revert Hloop.
    apply (main_loop_invariant depth sounds
             (fun s => length (grid (world s)) = 91%nat /\
                       count_mines (grid (world s)) = 10%nat /\
                       adjacency_ok (grid (world s)) /\
                       no_revealed_mine (grid (world s)) /\
                       playable (grid (world s)))).
    { intros e s s1. apply handle_event_board. }
    simpl.
    destruct (place_mines_loop_returned _ _ _ _ _ Hplace) as (Hlen & _ & Hcount).
    pose proof (place_mines_coords _ _ _ _ Hplace) as [_ Hrev].
    destruct (calculate_adjacent_mines_coords g) as [_ Hrev'].
    split_and!.
    - rewrite calculate_adjacent_mines_settle, length_fmap, Hlen. by vm_compute.
    - rewrite (count_mines_skeleton _ g).
      + change (count_mines (create_hex_grid 5)) with 0%nat in Hcount.
        unfold NUM_MINES in Hcount. lia.
      + rewrite calculate_adjacent_mines_settle, <- list_fmap_compose.
        apply list_fmap_ext. intros; simpl; apply skeleton_settle.
    - apply calculate_adjacent_mines_adjacency_ok.
    - apply no_revealed_mine_fresh.
      assert (Forall (fun b : bool => b = false)
                (revealed <$> calculate_adjacent_mines g)) as Hall.
      { rewrite Hrev', Hrev. apply Forall_fmap, Forall_forall. intros h Hh.
        apply elem_of_create_hex_grid in Hh as [-> _]. done. }
      by apply Forall_fmap in Hall.
    - by eapply setup_playable. }
  split_and!; try done. rewrite Hm. done.
Qed.

(** Every event is handled when the depth allowed exceeds the size of the
    board, and leaves the size as it is. *)
Lemma handle_event_returns (e : Event) (s : Session) :
  (length (grid (world s)) < depth)%nat ->
  exists s', handle_event depth sounds e s = Some s' /\
             length (grid (world s')) = length (grid (world s)).
Proof.
  intros Hd.
  assert (count_hidden (grid (world s)) < depth)%nat as Hh.
  { pose proof (length_filter (fun h => revealed h = false) (grid (world s))).
    unfold count_hidden. lia. }
  destruct e as [|key|[mx my] button|]; simpl; eauto.
  - destruct (key =? K_ESCAPE); eauto.
  - destruct (button =? 1); eauto.
    unfold left_click. rewrite click_scan_find.
    destruct (list_find _ _) as [[k hex]|]; eauto.
    unfold on_hit. destruct (is_mine hex).
    + eexists. split; [done|]. simpl. unfold game_over, play.
      by destruct (sounds snd_game_over).
    + destruct (reveal_hex_returns sounds depth (0 + k) (world s) Hh)
        as (w' & new & -> & Hpost).
      eexists. split; [done|]. simpl.
      by apply (extends_length sounds _ _ new), Hpost.
Qed.

Lemma main_loop_returns (frames : list (list Event)) (s : Session) :
  (length (grid (world s)) < depth)%nat ->
  exists s', main_loop depth sounds frames s = Some s'.
Proof.
  revert s. induction frames as [|events frames IH]; intros s Hd; simpl.
  - destruct (running s); eauto.
  - destruct (running s); eauto.
    assert (exists s1, handle_events depth sounds events s = Some s1 /\
                       length (grid (world s1)) = length (grid (world s)))
      as (s1 & -> & Hlen).
    { clear IH. revert s Hd. induction events as [|e events IHe]; intros s Hd.
      - by exists s.
      - destruct (handle_event_returns e s Hd) as (s0 & He & Hlen0).
        destruct (IHe s0) as (s1 & Hrest & Hlen1); [lia|].
        exists s1. split; [|lia]. apply handle_events_cons. eauto. }
    apply IH. lia.
Qed.

(** X16: in the game set up by [main] the flood fill never runs out of
    depth: with more than 91 nested calls allowed (Python allows about a
    thousand), every frame of events is handled, whatever the events. *)
Theorem game_never_out_of_depth (draws : list nat) (frames : list (list Event))
    (s0 : Session) :
  main_setup draws = Returned s0 ->
  (91 < depth)%nat ->
  exists s', main_loop depth sounds frames s0 = Some s'.
Proof.
  intros (g & Hplace & ->)%main_setup_Returned Hd.
  apply main_loop_returns. simpl.
  destruct (place_mines_loop_returned _ _ _ _ _ Hplace) as (Hlen & _ & _).
  rewrite calculate_adjacent_mines_settle, length_fmap, Hlen.
  change (length (create_hex_grid 5)) with 91%nat. done.
Qed.
End Game.

Lemma game_invariant_witness :
  exists s0 s',
    main_setup (seq 0 10) = Returned s0 /\
    main_loop 100 all_sounds [[MOUSEBUTTONDOWN (683, 384) 1]; [QUIT]] s0 = Some s' /\
    length (grid (world s')) = 91%nat /\
    Z.of_nat (count_mines (grid (world s'))) = NUM_MINES /\
    no_revealed_mine (grid (world s')).
Proof.
  assert (exists s0, main_setup (seq 0 10) = Returned s0 /\
            exists s', main_loop 100 all_sounds
                         [[MOUSEBUTTONDOWN (683, 384) 1]; [QUIT]] s0 = Some s')
    as (s0 & Hsetup & s' & Hloop).
  { eexists. split; [vm_compute; reflexivity|]. eexists. vm_compute. reflexivity. }
  exists s0, s'. split; [exact Hsetup|]. split; [exact Hloop|].
  destruct (game_invariant 100 all_sounds (seq 0 10) _ s0 s' Hsetup Hloop)
    as (Hlen & Hmines & _ & Hnone & _).
  split_and!; assumption.
Defined.

Lemma game_never_out_of_depth_witness :
  exists s0,
    main_setup (seq 0 10) = Returned s0 /\ (91 < 100)%nat /\
    exists s', main_loop 100 all_sounds
                 [[MOUSEBUTTONDOWN (683, 384) 1]; [QUIT]] s0 = Some s'.
Proof.
  assert (exists s0, main_setup (seq 0 10) = Returned s0) as [s0 Hsetup]
    by (eexists; vm_compute; reflexivity).
  assert (91 < 100)%nat as Hd by lia.
  exists s0. split; [exact Hsetup|]. split; [exact Hd|].
  exact (game_never_out_of_depth 100 all_sounds (seq 0 10) _ s0 Hsetup Hd).
Defined.

(** ** Sounds *)

(** X17: whatever files exist, the dictionary returned by [load_sounds] has
    exactly the keys "click", "reveal" and "game_over", so that the lookups
    of [reveal_hex] and [game_over] find their key; the entry is the sound
    loaded from the key's file when that file exists and [None] when it
    does not. *)
Theorem load_sounds_entries (file_exists : string -> bool) :
  (forall key : string,
     is_Some (load_sounds file_exists !! key) <->
     key ∈ key_name <$> [snd_click; snd_reveal; snd_game_over]) /\
  (forall k : SoundKey,
     load_sounds file_exists !! key_name k
     = Some (if file_exists (key_name k +:+ ".wav")
             then Some (Sound (key_name k +:+ ".wav")) else None)) /\
  (forall k : SoundKey,
     sounds_of (load_sounds file_exists) k = file_exists (key_name k +:+ ".wav")).
Proof.
  assert (forall k : SoundKey,
            load_sounds file_exists !! key_name k
            = Some (if file_exists (key_name k +:+ ".wav")
                    then Some (Sound (key_name k +:+ ".wav")) else None)) as Hk.
  { intros k. unfold load_sounds, sound_files. simpl.
    destruct k; simpl;
      try change ("click" +:+ ".wav")%string with "click.wav"%string;
      try change ("reveal" +:+ ".wav")%string with "reveal.wav"%string;
      try change ("game_over" +:+ ".wav")%string with "game_over.wav"%string;
      destruct (file_exists "click.wav"), (file_exists "reveal.wav"),
               (file_exists "game_over.wav");
      by simplify_map_eq. }
  split; [|split; [exact Hk|]].
  - intros key. split.
    + intros Hsome. simpl.
      destruct (decide (key = "click"%string)) as [->|Hc];
        [apply list_elem_of_here|].
      destruct (decide (key = "reveal"%string)) as [->|Hr];
        [apply list_elem_of_further, list_elem_of_here|].
      destruct (decide (key = "game_over"%string)) as [->|Hg];
        [do 2 apply list_elem_of_further; apply list_elem_of_here|].
      exfalso. revert Hsome. unfold load_sounds, sound_files. simpl.
      destruct (file_exists "click.wav"), (file_exists "reveal.wav"),
               (file_exists "game_over.wav");
        rewrite !lookup_insert_ne, lookup_empty by done;
        by intros [? ?].
    + intros (k & -> & _)%list_elem_of_fmap. rewrite Hk. eauto.
  - intros k. unfold sounds_of. rewrite Hk. by destruct (file_exists _).
Qed.

(** ** Drawing *)

Section Drawing.
Context {F : Type} `{FloatOps F} `{FloatTrig F}.
Variables text_width text_height : Z -> Z.

Lemma draw_hexagon_same_view (h1 h2 : Hex) (ox oy : Z) :
  same_view h1 h2 ->
  draw_hexagon text_width text_height h1 ox oy false
  = draw_hexagon text_width text_height h2 ox oy false.
Proof.
  intros (Hq & Hr & Hrev & Hrest). unfold draw_hexagon, center.
  rewrite <- Hq, <- Hr, <- Hrev. simpl.
  destruct (revealed h1).
  - destruct Hrest as [<- <-]. done.
  - by rewrite Hrest.
Qed.

(** X18: outside debug mode the drawing shows nothing of a hidden cell but
    its place and colour: two boards whose cells agree on coordinates and on
    [revealed], on mine and count where revealed and on colour where hidden,
    are drawn by the same commands, wherever their hidden mines are. *)
Theorem draw_all_hides_mines (g g' : list Hex) :
  Forall2 same_view g g' ->
  draw_all text_width text_height g false
  = draw_all text_width text_height g' false.
Proof.
  unfold draw_all. induction 1 as [|h1 h2 g g' Hview _ IH]; [done|].
  rewrite !bind_cons, IH. f_equal. by apply draw_hexagon_same_view.
Qed.
End Drawing.

Lemma draw_all_hides_mines_witness :
  Forall2 same_view sample_board (create_hex_grid 1) /\
  draw_all (F := float) (fun _ => 10) (fun _ => 20) sample_board false
  = draw_all (F := float) (fun _ => 10) (fun _ => 20) (create_hex_grid 1) false.
Proof.
  assert (Forall2 same_view sample_board (create_hex_grid 1)) as Hview.
  { unfold sample_board, with_mines. apply Forall2_fmap_l, Forall_Forall2_diag.
    apply Forall_forall. intros h Hh.
    apply elem_of_create_hex_grid in Hh as [-> _]. by repeat split. }
  split; [exact Hview|].
  exact (draw_all_hides_mines _ _ sample_board (create_hex_grid 1) Hview).
Defined.

(** The hidden cell at the centre of the screen, drawn in debug mode when
    it is a mine: the filled hexagon, its border and the marker. *)
Example draw_hidden_mine_debug :
  draw_hexagon (F := float) (fun _ => 10) (fun _ => 20)
    (set_is_mine true (Hex_init 0 0)) offset_x offset_y true
  = [Polygon (0, 255, 0) (corners 683%float 384%float) 0;
     Polygon (0, 0, 0) (corners 683%float 384%float) 1;
     Circle (0, 0, 255) 683 384 10].
Proof. vm_compute. reflexivity. Qed.

(** ** The order of the cells *)

Lemma StronglySorted_seqZ (m n : Z) : StronglySorted Z.lt (seqZ m n).
Proof.
  remember (Z.to_nat n) as k eqn:Hk. revert m n Hk.
  induction k as [|k IH]; intros m n Hk.
  - rewrite seqZ_nil by lia. constructor.
  - rewrite seqZ_cons by lia. constructor; [apply IH; lia|].
    apply Forall_seqZ. intros. lia.
Qed.

Lemma StronglySorted_bind {A B} (R0 : A -> A -> Prop) (R : B -> B -> Prop)
    (f : A -> list B) (l : list A) :
  StronglySorted R0 l ->
  (forall x, x ∈ l -> StronglySorted R (f x)) ->
  (forall x y a b, R0 x y -> a ∈ f x -> b ∈ f y -> R a b) ->
  StronglySorted R (l ≫= f).
Proof.
  intros Hl Hin Hacross. induction Hl as [|x l Hl IH Hx]; [constructor|].
  rewrite bind_cons. apply StronglySorted_app_2.
  - intros a b Ha (y & Hb & Hy)%list_elem_of_bind.
    apply (Hacross x y); try done.
    by apply (proj1 (Forall_forall _ _) Hx).
  - apply Hin, list_elem_of_here.
  - apply IH. intros y Hy. by apply Hin, list_elem_of_further.
Qed.

(** X19: [create_hex_grid] lists the cells column by column, in increasing
    [q] and, within a column, in increasing [r]; this is the order in which
    the hit test of a click goes through them. *)
Theorem create_hex_grid_sorted (rings : Z) :
  StronglySorted before (create_hex_grid rings).
Proof.
  rewrite create_hex_grid_columns.
  apply (StronglySorted_bind Z.lt); [apply StronglySorted_seqZ|..].
  - intros cq _. rewrite column_seqZ.
    generalize (StronglySorted_seqZ (Z.max (- cq - rings) (- rings))
                  (Z.min (rings - cq + 1) (rings + 1)
                   - Z.max (- cq - rings) (- rings))).
    generalize (seqZ (Z.max (- cq - rings) (- rings))
                  (Z.min (rings - cq + 1) (rings + 1)
                   - Z.max (- cq - rings) (- rings))).
    intros l. induction 1 as [|cr l _ IH Hcr]; [constructor|].
    rewrite fmap_cons. constructor; [exact IH|].
    apply Forall_fmap. eapply Forall_impl; [exact Hcr|].
    intros cr' Hlt. right. simpl. done.
  - intros cq1 cq2 h1 h2 Hlt H1 H2. unfold column in *.
    apply list_elem_of_fmap in H1 as (? & -> & _).
    apply list_elem_of_fmap in H2 as (? & -> & _).
    by left.
Qed.

(** ** Clicks and the end of the game *)

Section Clicks.
Context {F : Type} `{FloatOps F}.
Variables (depth : nat) (sounds : Sounds).

(** X20: a left click whose first hit is a cell already revealed (and not a
    mine) does nothing: the grid, both logs and [running] are as before, so
    no sound is played for it. *)
Theorem left_click_revealed (mx my : Z) (s : Session) (i : nat) (hex : Hex) :
  grid (world s) !! i = Some hex ->
  hit offset_x offset_y mx my hex = true ->
  (forall j h, (j < i)%nat -> grid (world s) !! j = Some h ->
               hit offset_x offset_y mx my h = false) ->
  is_mine hex = false -> revealed hex = true ->
  handle_event (S depth) sounds (MOUSEBUTTONDOWN (mx, my) 1) s = Some s.
Proof.
  intros Hi Hhit Hbefore Hm Hr.
  rewrite (left_click_on_first (S depth) sounds mx my s i hex Hi Hhit Hbefore).
  unfold on_hit. rewrite Hm, reveal_hex_S, Hi, Hr. by destruct s.
Qed.

(** X21: the loop is only ever stopped by a quit request, by the escape key
    or by a left click whose first hit is a mine; revealing cells never
    stops it, however many are revealed. *)
Theorem only_ways_to_stop (e : Event) (s s' : Session) :
  running s = true ->
  handle_event depth sounds e s = Some s' ->
  running s' = false ->
  e = QUIT \/ e = KEYDOWN K_ESCAPE \/
  exists mx my i hex,
    e = MOUSEBUTTONDOWN (mx, my) 1 /\
    list_find (fun h => hit offset_x offset_y mx my h = true) (grid (world s))
    = Some (i, hex) /\
    is_mine hex = true.
Proof.
  intros Hr He Hr'. destruct e as [|key|[mx my] button|]; simpl in He.
  - by left.
  - right. left. destruct (key =? K_ESCAPE) eqn:Hk.
    + apply Z.eqb_eq in Hk. by rewrite Hk.
    + injection He as <-. congruence.
  - right. right. destruct (button =? 1) eqn:Hb.
    2: { injection He as <-. congruence. }
    apply Z.eqb_eq in Hb. rewrite Hb.
    unfold left_click in He. rewrite click_scan_find in He.
    destruct (list_find _ _) as [[k hex]|] eqn:Hfind.
    2: { injection He as <-. congruence. }
    exists mx, my, k, hex. split; [done|]. split; [done|].
    unfold on_hit in He. destruct (is_mine hex); [done|].
    destruct (reveal_hex depth sounds (0 + k) (world s)); [|done].
    injection He as <-. simpl in Hr'. congruence.
  - injection He as <-. congruence.
Qed.
End Clicks.

Lemma left_click_revealed_witness :
  exists s,
    handle_event 3 all_sounds (MOUSEBUTTONDOWN (683, 384) 1) lone_cell = Some s /\
    grid (world s) !! 0%nat = Some (set_revealed true (Hex_init 0 0)) /\
    hit offset_x offset_y 683 384 (set_revealed true (Hex_init 0 0)) = true /\
    handle_event 3 all_sounds (MOUSEBUTTONDOWN (683, 384) 1) s = Some s.
Proof.
  assert (hit offset_x offset_y 683 384 (set_revealed true (Hex_init 0 0)) = true)
    as Hhit by (vm_compute; reflexivity).
  exists {| world := {| grid := [set_revealed true (Hex_init 0 0)];
                        played := [snd_reveal]; marked := [0%nat] |};
            running := true |}.
  split; [vm_compute; reflexivity|]. split; [reflexivity|]. split; [exact Hhit|].
  apply (left_click_revealed 2 all_sounds 683 384 _ 0
           (set_revealed true (Hex_init 0 0)));
    [reflexivity|exact Hhit|intros j h Hj; lia|reflexivity..].
Defined.

Lemma only_ways_to_stop_witness :
  running lone_mine = true /\
  exists s',
    handle_event 3 all_sounds (MOUSEBUTTONDOWN (683, 384) 1) lone_mine = Some s' /\
    running s' = false /\
    (MOUSEBUTTONDOWN (683, 384) 1 = QUIT \/
     MOUSEBUTTONDOWN (683, 384) 1 = KEYDOWN K_ESCAPE \/
     exists mx my i hex,
       MOUSEBUTTONDOWN (683, 384) 1 = MOUSEBUTTONDOWN (mx, my) 1 /\
       list_find (fun h => hit offset_x offset_y mx my h = true)
         (grid (world lone_mine)) = Some (i, hex) /\
       is_mine hex = true).
Proof.
  split; [reflexivity|].
  exists {| world := game_over all_sounds (world lone_mine); running := false |}.
  assert (handle_event 3 all_sounds (MOUSEBUTTONDOWN (683, 384) 1) lone_mine
          = Some {| world := game_over all_sounds (world lone_mine);
                    running := false |}) as He by (vm_compute; reflexivity).
  split; [exact He|]. split; [reflexivity|].
  exact (only_ways_to_stop 3 all_sounds _ lone_mine _ eq_refl He eq_refl).
Defined.

(** ** The boards of the game are playable *)

Section Reached.
Context {F : Type} `{FloatOps F}.

(** Every state the game reaches, from the board set up by [main] through
    any frames of events, has a playable board: the hypothesis of
    [reveal_hex_flood] holds at every click of a game. *)
Lemma game_playable (depth : nat) (sounds : Sounds) (draws : list nat)
    (frames : list (list Event)) (s0 s' : Session) :
  main_setup draws = Returned s0 ->
  main_loop depth sounds frames s0 = Some s' ->
  playable (grid (world s')).
Proof.
  intros (g & Hplace & ->)%main_setup_Returned.
  apply (main_loop_invariant depth sounds (fun s => playable (grid (world s)))).
  - intros e s s1. apply handle_event_playable.
  - simpl. by eapply setup_playable.
Qed.
End Reached.
